(** * The dedicated-thread ptrace proxy of program/server/ptrace.go

    The Go file has one executor, [ptraceRun], which runs closures taken from
    a channel [fc] on a goroutine locked to an operating-system thread and
    sends what they return on a channel [ec], and nine methods of [Server]
    which each send one closure on [s.fc] and then receive from [s.ec].

    The development has three layers:
    - the closures of the nine methods, as functions on an explicit store
      (the kernel's state, the record of the primitives invoked, and the
      variables the closures capture);
    - the executor loop as a function from the closures it consumes to the
      values it sends;
    - an interleaving machine with the executor goroutine, any number of
      client goroutines and the two channels, in which the methods and the
      executor run together. *)

From Stdlib Require Import ZArith Ascii String DecimalString DecimalZ DecimalPos.
From stdpp Require Import base list gmap strings.

Set Default Proof Using "Type".

(** ** Go values *)

Definition int := Z.
Definition uintptr := Z.
(** A pointer ([*os.Process], [*os.ProcAttr], [*syscall.PtraceRegs]); 0 is nil.
    What it points to belongs to the kernel's view of memory. *)
Definition ptr := Z.
Definition WaitStatus := Z.
Definition byte := Byte.byte.
(** An operating-system thread. *)
Definition tid := nat.

(** A non-nil Go [error]: either a value reported by a primitive of package
    [os] or [syscall], or the string error built by [fmt.Errorf]. *)
Inductive error_value : Type :=
| OsError (code : Z)
| ErrorString (msg : string).

(** Go's [error]; [None] is [nil]. *)
Definition error := option error_value.

#[global] Instance error_value_eq_dec : EqDecision error_value.
Proof. solve_decision. Defined.

Definition len {A} (l : list A) : int := Z.of_nat (length l).

(** The verb [%d] of package [fmt] on an [int]. *)
Definition fmt_d (n : int) : string := NilZero.string_of_int (Z.to_int n).

(** Reading a decimal numeral back. *)
Definition read_d (s : string) : option int := Z.of_int <$> NilZero.int_of_string s.

(** [fmt.Sprintf] for formats whose only verb is [%d]. *)
Fixpoint Sprintf (format : string) (args : list int) : string :=
  match format with
  | EmptyString => EmptyString
  | String "%"%char (String "d"%char rest) =>
      match args with
      | a :: args' => fmt_d a +:+ Sprintf rest args'
      | [] => "%!d(MISSING)" +:+ Sprintf rest []
      end
  | String c rest => String c (Sprintf rest args)
  end.

Definition Errorf (format : string) (args : list int) : error :=
  Some (ErrorString (Sprintf format args)).

(** [syscall.WALL] on Linux. *)
Definition WALL : int := 0x40000000%Z.

(** ** The primitives of packages [os] and [syscall]

    The kernel is a parameter: a state [World] and one transition per
    primitive the file calls.  [syscall_Wait4 pid options] stands for
    [syscall.Wait4(pid, &status, options, nil)] and returns the value it
    stores through [&status] with its two results.  A byte slice is passed
    as the bytes it holds. *)
Class Kernel (World : Type) := {
  os_StartProcess : string → list string → ptr → World → (ptr * error) * World;
  syscall_PtraceCont : int → int → World → error * World;
  syscall_PtraceGetRegs : int → ptr → World → error * World;
  syscall_PtracePeekText : int → uintptr → list byte → World → (int * error) * World;
  syscall_PtracePokeText : int → uintptr → list byte → World → (int * error) * World;
  syscall_PtraceSetOptions : int → int → World → error * World;
  syscall_PtraceSetRegs : int → ptr → World → error * World;
  syscall_PtraceSingleStep : int → World → error * World;
  syscall_Wait4 : int → int → World → (int * WaitStatus * error) * World;
}.

(** One invocation of a primitive, with its arguments. *)
Inductive Call : Type :=
| CallStartProcess (name : string) (argv : list string) (attr : ptr)
| CallPtraceCont (pid signal : int)
| CallPtraceGetRegs (pid : int) (regsout : ptr)
| CallPtracePeekText (pid : int) (addr : uintptr) (out : list byte)
| CallPtracePokeText (pid : int) (addr : uintptr) (data : list byte)
| CallPtraceSetOptions (pid options : int)
| CallPtraceSetRegs (pid : int) (regs : ptr)
| CallPtraceSingleStep (pid : int)
| CallWait4 (pid options : int).

(** The variables of one method call that its closure captures: the named
    results [proc] of [startProcess], and [wpid] and [status] of [wait].
    Go allocates them afresh, zeroed, at every call. *)
Record Frame := { proc : ptr; wpid : int; status : WaitStatus }.

Definition zero_frame : Frame := {| proc := 0%Z; wpid := 0%Z; status := 0%Z |}.

(** A call is named by the goroutine that makes it and its rank among the
    calls of that goroutine; the name is the address of its frame. *)
Definition key := (nat * nat)%type.

(** A Go channel: its capacity, what it buffers, whether it is closed. *)
Record chan (A : Type) := Chan { cap : nat; buf : list A; closed : bool }.
Arguments Chan {A}.
Arguments cap {A}.
Arguments buf {A}.
Arguments closed {A}.

Definition enqueue {A} (x : A) (c : chan A) : chan A :=
  Chan (cap c) (buf c ++ [x]) (closed c).
Definition dequeue {A} (c : chan A) : chan A :=
  Chan (cap c) (tail (buf c)) (closed c).
Definition close {A} (c : chan A) : chan A :=
  Chan (cap c) (buf c) true.

Section Proxy.

Context {World : Type} {kernel : Kernel World}.

(** ** The store the closures act on *)

Record Store := {
  world : World;                  (* the kernel *)
  trace : list (tid * Call);      (* the primitives invoked so far, and where *)
  vars : gmap key Frame;          (* the captured variables, by call *)
}.

Definition frame (κ : key) (s : Store) : Frame := default zero_frame (vars s !! κ).

Definition set_frame (κ : key) (upd : Frame → Frame) (s : Store) : Store :=
  {| world := world s; trace := trace s; vars := <[κ := upd (frame κ s)]> (vars s) |}.

(** A [func() error], run on OS thread [t]. *)
Definition func := tid → Store → error * Store.

(** Invoking primitive [prim], recorded as [c], on thread [t]. *)
Definition invoke {A} (c : Call) (prim : World → A * World) (t : tid) (s : Store) : A * Store :=
  let '(a, w) := prim (world s) in
  (a, {| world := w; trace := trace s ++ [(t, c)]; vars := vars s |}).

(** ** The closures of the nine methods

    Each definition is the closure its method sends on [s.fc]; [κ] names the
    variables of the enclosing call. *)

Definition startProcess (name : string) (argv : list string) (attr : ptr) (κ : key) : func :=
  λ t s,
    let '((proc1, err1), s1) :=
      invoke (CallStartProcess name argv attr) (os_StartProcess name argv attr) t s in
    (err1, set_frame κ (λ fr, {| proc := proc1; wpid := wpid fr; status := status fr |}) s1).

Definition ptraceCont (pid signal : int) (κ : key) : func :=
  λ t s, invoke (CallPtraceCont pid signal) (syscall_PtraceCont pid signal) t s.

Definition ptraceGetRegs (pid : int) (regsout : ptr) (κ : key) : func :=
  λ t s, invoke (CallPtraceGetRegs pid regsout) (syscall_PtraceGetRegs pid regsout) t s.

Definition ptracePeek (pid : int) (addr : uintptr) (out : list byte) (κ : key) : func :=
  λ t s,
    let '((n, err), s1) :=
      invoke (CallPtracePeekText pid addr out) (syscall_PtracePeekText pid addr out) t s in
    if decide (err ≠ None) then (err, s1)
    else if decide (n ≠ len out)
         then (Errorf "ptracePeek: peeked %d bytes, want %d" [n; len out], s1)
         else (None, s1).

Definition ptracePoke (pid : int) (addr : uintptr) (data : list byte) (κ : key) : func :=
  λ t s,
    let '((n, err), s1) :=
      invoke (CallPtracePokeText pid addr data) (syscall_PtracePokeText pid addr data) t s in
    if decide (err ≠ None) then (err, s1)
    else if decide (n ≠ len data)
         then (Errorf "ptracePoke: poked %d bytes, want %d" [n; len data], s1)
         else (None, s1).

Definition ptraceSetOptions (pid options : int) (κ : key) : func :=
  λ t s, invoke (CallPtraceSetOptions pid options) (syscall_PtraceSetOptions pid options) t s.

Definition ptraceSetRegs (pid : int) (regs : ptr) (κ : key) : func :=
  λ t s, invoke (CallPtraceSetRegs pid regs) (syscall_PtraceSetRegs pid regs) t s.

Definition ptraceSingleStep (pid : int) (κ : key) : func :=
  λ t s, invoke (CallPtraceSingleStep pid) (syscall_PtraceSingleStep pid) t s.

Definition wait (pid : int) (κ : key) : func :=
  λ t s,
    let '((wpid1, status1, err1), s1) :=
      invoke (CallWait4 pid WALL) (syscall_Wait4 pid WALL) t s in
    (err1, set_frame κ (λ fr, {| proc := proc fr; wpid := wpid1; status := status1 |}) s1).

(** ** The executor, [ptraceRun]

    The test at the top of [ptraceRun]: it panics, or goes on to
    [rt.LockOSThread()] and the loop. *)
Inductive entry : Type :=
| Panics (msg : string)
| Proceeds.

Definition ptraceRun_entry (cap_fc cap_ec : nat) : entry :=
  if negb (cap_fc =? 0) || negb (cap_ec =? 0)
  then Panics "ptraceRun was given unbuffered channels"
  else Proceeds.

(** The loop [for f := range fc { ec <- f() }] as a function from the
    closures received from [fc] until it is closed to the values sent on
    [ec], on thread [t] from store [s]. *)
Fixpoint ptraceRun_loop (fs : list func) (t : tid) (s : Store) : list error * Store :=
  match fs with
  | [] => ([], s)
  | f :: fs' =>
      let '(e, s1) := f t s in
      let '(es, s2) := ptraceRun_loop fs' t s1 in
      (e :: es, s2)
  end.

(** ** The machine: executor, clients and channels

    The goroutine running [ptraceRun], client goroutines that call the
    methods, and the two channels, under any schedule.  The channel
    operations are those of the Go specification: a send on a channel
    completes with a receive when nothing is buffered, or goes into the
    buffer while it has room; a send on a closed channel panics; [range]
    ends when the channel is closed and drained; a panic ends the program.
    [rt.LockOSThread] wires the goroutine to the thread it is on: the
    runtime moves a goroutine to another thread only while it is not locked.
    Nothing closes [ec].  In [return proc, <-s.ec] and in
    [return wpid, status, <-s.ec] the variables are read once the receive is
    done, which is the order in which the gc compiler evaluates the
    operands. *)

(** The closure of a method call, given the name of the call's variables. *)
Definition request := key → func.

(** Where the goroutine running [ptraceRun] stands. *)
Inductive wstate : Type :=
| WInit                           (* at the top of ptraceRun *)
| WIdle                           (* blocked in [range fc] *)
| WHave (κ : key) (f : func)      (* received f, about to call it *)
| WRunning (κ : key) (f : func)   (* inside f() *)
| WSend (κ : key) (e : error)     (* f() returned e: blocked in [ec <- e] *)
| WDone.                          (* ptraceRun has returned *)

(** A client goroutine: the method calls it makes, in order; the rank of
    the current one; whether its closure is sent and it is blocked in
    [<-s.ec]. *)
Record client := Client { prog : list request; pc : nat; waiting : bool }.

(** What is observed of a run.  A closure travels with the name of the call
    that sent it, and a result with the name of the call it answers. *)
Inductive event : Type :=
| EvAccept (κ : key) (f : func)                (* the executor received f from fc *)
| EvBegin (κ : key) (t : tid)                  (* f() begins, on thread t *)
| EvEnd (κ : key) (e : error) (pre post : Store) (* f() returns e, taking pre to post *)
| EvSent (κ : key) (e : error)                 (* [ec <- e] completes *)
| EvReturn (κ ρ : key) (e : error) (fr : Frame). (* call κ received the answer e to ρ and returns *)

Record machine := Machine {
  fc : chan (key * func);
  ec : chan (key * error);
  worker : wstate;
  wthread : tid;        (* the thread the executor goroutine runs on *)
  pinned : bool;        (* rt.LockOSThread() was called *)
  panicked : bool;      (* a goroutine panicked: the program is dead *)
  clients : list client;
  store : Store;
  log : list event;
}.

Definition init (cap_fc cap_ec : nat) (t : tid) (progs : list (list request)) (s : Store) : machine :=
  {| fc := Chan cap_fc [] false; ec := Chan cap_ec [] false;
     worker := WInit; wthread := t; pinned := false; panicked := false;
     clients := (λ p, Client p 0 false) <$> progs;
     store := s; log := [] |}.

(** The moves of the scheduler and of the owner of the channels. *)
Inductive action : Type :=
| AStart                 (* ptraceRun: the test and rt.LockOSThread() *)
| AMigrate (t : tid)     (* the runtime moves the executor goroutine to thread t *)
| AHandOff (g : nat)     (* [s.fc <- f] of client g meets [range fc] *)
| AEnqueue (g : nat)     (* [s.fc <- f] of client g goes into the buffer of fc *)
| ADequeue               (* [range fc] takes from the buffer of fc *)
| ABegin                 (* the executor calls f *)
| AEnd                   (* f returns *)
| AAnswer (g : nat)      (* [ec <- e] meets [<-s.ec] of client g, which returns *)
| AEnqueueAnswer         (* [ec <- e] goes into the buffer of ec *)
| ATakeAnswer (g : nat)  (* [<-s.ec] of client g takes from the buffer of ec and returns *)
| AClose                 (* close(fc) *)
| AExit                  (* [range fc] finds fc closed and empty *)
| ASendClosed (g : nat). (* [s.fc <- f] of client g finds fc closed *)

(** Client [g] is about to send the closure of its next call. *)
Definition sending (m : machine) (g : nat) : option (client * key * func) :=
  c ← clients m !! g;
  if waiting c then None
  else r ← prog c !! pc c; Some (c, (g, pc c), r (g, pc c)).

(** Client [g] is blocked in [<-s.ec]. *)
Definition receiving (m : machine) (g : nat) : option client :=
  c ← clients m !! g;
  if waiting c then Some c else None.

Definition sent (c : client) : client := Client (prog c) (pc c) true.
Definition returned (c : client) : client := Client (prog c) (S (pc c)) false.

Definition step (a : action) (m : machine) : option machine :=
  if panicked m then None else
  match a, worker m with
  | AStart, WInit =>
      match ptraceRun_entry (cap (fc m)) (cap (ec m)) with
      | Panics _ =>
          Some (Machine (fc m) (ec m) WInit (wthread m) (pinned m) true
                  (clients m) (store m) (log m))
      | Proceeds =>
          Some (Machine (fc m) (ec m) WIdle (wthread m) true false
                  (clients m) (store m) (log m))
      end
  | AMigrate t, w =>
      if pinned m then None
      else Some (Machine (fc m) (ec m) w t false false (clients m) (store m) (log m))
  | AHandOff g, WIdle =>
      if closed (fc m) then None else
      match buf (fc m) with
      | [] =>
          '(c, κ, f) ← sending m g;
          Some (Machine (fc m) (ec m) (WHave κ f) (wthread m) (pinned m) false
                  (<[g := sent c]> (clients m)) (store m) (log m ++ [EvAccept κ f]))
      | _ :: _ => None
      end
  | AEnqueue g, w =>
      if closed (fc m) then None else
      if decide (length (buf (fc m)) < cap (fc m)) then
        '(c, κ, f) ← sending m g;
        Some (Machine (enqueue (κ, f) (fc m)) (ec m) w (wthread m) (pinned m) false
                (<[g := sent c]> (clients m)) (store m) (log m))
      else None
  | ADequeue, WIdle =>
      match buf (fc m) with
      | (κ, f) :: _ =>
          Some (Machine (dequeue (fc m)) (ec m) (WHave κ f) (wthread m) (pinned m) false
                  (clients m) (store m) (log m ++ [EvAccept κ f]))
      | [] => None
      end
  | ABegin, WHave κ f =>
      Some (Machine (fc m) (ec m) (WRunning κ f) (wthread m) (pinned m) false
              (clients m) (store m) (log m ++ [EvBegin κ (wthread m)]))
  | AEnd, WRunning κ f =>
      let '(e, s') := f (wthread m) (store m) in
      Some (Machine (fc m) (ec m) (WSend κ e) (wthread m) (pinned m) false
              (clients m) s' (log m ++ [EvEnd κ e (store m) s']))
  | AAnswer g, WSend ρ e =>
      match buf (ec m) with
      | [] =>
          c ← receiving m g;
          Some (Machine (fc m) (ec m) WIdle (wthread m) (pinned m) false
                  (<[g := returned c]> (clients m)) (store m)
                  (log m ++ [EvSent ρ e; EvReturn (g, pc c) ρ e (frame (g, pc c) (store m))]))
      | _ :: _ => None
      end
  | AEnqueueAnswer, WSend ρ e =>
      if decide (length (buf (ec m)) < cap (ec m)) then
        Some (Machine (fc m) (enqueue (ρ, e) (ec m)) WIdle (wthread m) (pinned m) false
                (clients m) (store m) (log m ++ [EvSent ρ e]))
      else None
  | ATakeAnswer g, w =>
      match buf (ec m) with
      | (ρ, e) :: _ =>
          c ← receiving m g;
          Some (Machine (fc m) (dequeue (ec m)) w (wthread m) (pinned m) false
                  (<[g := returned c]> (clients m)) (store m)
                  (log m ++ [EvReturn (g, pc c) ρ e (frame (g, pc c) (store m))]))
      | [] => None
      end
  | AClose, w =>
      if closed (fc m) then None
      else Some (Machine (close (fc m)) (ec m) w (wthread m) (pinned m) false
                   (clients m) (store m) (log m))
  | AExit, WIdle =>
      match closed (fc m), buf (fc m) with
      | true, [] =>
          Some (Machine (fc m) (ec m) WDone (wthread m) (pinned m) false
                  (clients m) (store m) (log m))
      | _, _ => None
      end
  | ASendClosed g, w =>
      if closed (fc m) then
        _ ← sending m g;
        Some (Machine (fc m) (ec m) w (wthread m) (pinned m) true
                (clients m) (store m) (log m))
      else None
  | _, _ => None
  end.

(** A schedule, run from a state. *)
Fixpoint exec (acts : list action) (m : machine) : option machine :=
  match acts with
  | [] => Some m
  | a :: acts' => m' ← step a m; exec acts' m'
  end.

(** ** The shape of every run

    A round is one closure from its receipt by the executor to the return
    of the call that sent it. *)
Record round := Round {
  r_key : key; r_fn : func; r_thr : tid; r_err : error; r_pre : Store; r_post : Store;
}.

Definition round_events (r : round) : list event :=
  [EvAccept (r_key r) (r_fn r);
   EvBegin (r_key r) (r_thr r);
   EvEnd (r_key r) (r_err r) (r_pre r) (r_post r);
   EvSent (r_key r) (r_err r);
   EvReturn (r_key r) (r_key r) (r_err r) (frame (r_key r) (r_post r))].

(** The rounds follow one another: each closure starts from the store the
    one before left, and its round holds what it returned. *)
Fixpoint chain (s : Store) (rs : list round) (s_end : Store) : Prop :=
  match rs with
  | [] => s_end = s
  | r :: rs' =>
      r_pre r = s ∧ r_fn r (r_thr r) s = (r_err r, r_post r) ∧ chain (r_post r) rs' s_end
  end.

Definition request_at (progs : list (list request)) (κ : key) : option request :=
  p ← progs !! κ.1; p !! κ.2.

(** No client is blocked in [<-s.ec]. *)
Definition quiet (m : machine) : Prop :=
  ∀ g c, clients m !! g = Some c → waiting c = false.

(** Call [κ] is the one client blocked in [<-s.ec]. *)
Definition busy (m : machine) (κ : key) : Prop :=
  (∃ c, clients m !! κ.1 = Some c ∧ pc c = κ.2 ∧ waiting c = true) ∧
  (∀ g c, g ≠ κ.1 → clients m !! g = Some c → waiting c = false).

(** Call [κ] has returned. *)
Definition over (m : machine) (κ : key) : Prop :=
  ∃ c, clients m !! κ.1 = Some c ∧ κ.2 < pc c.

Definition sent_by (progs : list (list request)) (κ : key) (f : func) : Prop :=
  ∃ r, request_at progs κ = Some r ∧ f = r κ.

(** What the round in progress has logged, by the state of the executor. *)
Definition current (progs : list (list request)) (m : machine)
    (rs : list round) (s_end : Store) (tl : list event) : Prop :=
  match worker m with
  | WInit =>
      rs = [] ∧ tl = [] ∧ store m = s_end ∧ (cap (fc m) = 0 → quiet m)
  | WIdle | WDone =>
      tl = [] ∧ store m = s_end ∧ quiet m
  | WHave κ f =>
      tl = [EvAccept κ f] ∧ store m = s_end ∧ busy m κ ∧ sent_by progs κ f
  | WRunning κ f =>
      tl = [EvAccept κ f; EvBegin κ (wthread m)] ∧ store m = s_end ∧
      busy m κ ∧ sent_by progs κ f
  | WSend κ e =>
      ∃ f, tl = [EvAccept κ f; EvBegin κ (wthread m); EvEnd κ e s_end (store m)] ∧
           f (wthread m) s_end = (e, store m) ∧ busy m κ ∧ sent_by progs κ f
  end.

Definition history (progs : list (list request)) (s0 : Store) (m : machine)
    (rs : list round) (s_end : Store) (tl : list event) : Prop :=
  log m = concat (round_events <$> rs) ++ tl ∧
  chain s0 rs s_end ∧
  Forall (λ r, r_thr r = wthread m ∧ over m (r_key r) ∧ sent_by progs (r_key r) (r_fn r)) rs ∧
  NoDup (r_key <$> rs) ∧
  current progs m rs s_end tl.

Record Inv (progs : list (list request)) (s0 : Store) (m : machine) : Prop := {
  inv_progs : prog <$> clients m = progs;
  inv_ec_buf : buf (ec m) = [];
  inv_fc_buf : length (buf (fc m)) ≤ cap (fc m);
  inv_started : worker m ≠ WInit → cap (fc m) = 0 ∧ cap (ec m) = 0 ∧ pinned m = true;
  inv_history : ∃ rs s_end tl, history progs s0 m rs s_end tl;
}.

(** ** Reading a log *)

(** The closures the executor received, the calls it began and ended, and
    the results it sent, each in order. *)
Definition accepted (l : list event) : list (key * func) :=
  omap (λ ev, match ev with EvAccept κ f => Some (κ, f) | _ => None end) l.
Definition begun (l : list event) : list (key * tid) :=
  omap (λ ev, match ev with EvBegin κ t => Some (κ, t) | _ => None end) l.
Definition ended (l : list event) : list (key * error) :=
  omap (λ ev, match ev with EvEnd κ e _ _ => Some (κ, e) | _ => None end) l.
Definition answered (l : list event) : list (key * error) :=
  omap (λ ev, match ev with EvSent κ e => Some (κ, e) | _ => None end) l.

(** How many closures are begun and not ended. *)
Definition in_flight (l : list event) : nat := length (begun l) - length (ended l).

(** The log never begins a closure while another is begun and not ended,
    and never ends one that is not begun; [running] tells whether one is. *)
Fixpoint serial (running : bool) (l : list event) : bool :=
  match l with
  | [] => true
  | EvBegin _ _ :: l' => if running then false else serial true l'
  | EvEnd _ _ _ _ :: l' => if running then serial false l' else false
  | _ :: l' => serial running l'
  end.

(** How many times the closure of call [κ] was run to its end. *)
Definition executions (κ : key) (l : list event) : nat :=
  count_occ (decide_rel (=)) (fst <$> ended l) κ.

(** ** The methods of [Server], as calls a client makes *)
Inductive method : Type :=
| StartProcess (name : string) (argv : list string) (attr : ptr)
| PtraceCont (pid signal : int)
| PtraceGetRegs (pid : int) (regsout : ptr)
| PtracePeek (pid : int) (addr : uintptr) (out : list byte)
| PtracePoke (pid : int) (addr : uintptr) (data : list byte)
| PtraceSetOptions (pid options : int)
| PtraceSetRegs (pid : int) (regs : ptr)
| PtraceSingleStep (pid : int)
| Wait (pid : int).

(** The closure the method sends on [s.fc]. *)
Definition closure (mth : method) : request :=
  match mth with
  | StartProcess name argv attr => startProcess name argv attr
  | PtraceCont pid signal => ptraceCont pid signal
  | PtraceGetRegs pid regsout => ptraceGetRegs pid regsout
  | PtracePeek pid addr out => ptracePeek pid addr out
  | PtracePoke pid addr data => ptracePoke pid addr data
  | PtraceSetOptions pid options => ptraceSetOptions pid options
  | PtraceSetRegs pid regs => ptraceSetRegs pid regs
  | PtraceSingleStep pid => ptraceSingleStep pid
  | Wait pid => wait pid
  end.

(** The primitive the closure of the method names, with the arguments it
    passes. *)
Definition primitive_of (mth : method) : Call :=
  match mth with
  | StartProcess name argv attr => CallStartProcess name argv attr
  | PtraceCont pid signal => CallPtraceCont pid signal
  | PtraceGetRegs pid regsout => CallPtraceGetRegs pid regsout
  | PtracePeek pid addr out => CallPtracePeekText pid addr out
  | PtracePoke pid addr data => CallPtracePokeText pid addr data
  | PtraceSetOptions pid options => CallPtraceSetOptions pid options
  | PtraceSetRegs pid regs => CallPtraceSetRegs pid regs
  | PtraceSingleStep pid => CallPtraceSingleStep pid
  | Wait pid => CallWait4 pid WALL
  end.

(** What a primitive reports: the process handle, the count of bytes or the
    pid, the wait status, as far as it has them, and its error. *)
Record report := Report {
  rep_proc : ptr; rep_n : int; rep_status : WaitStatus; rep_err : error;
}.

(** The kernel performing an invocation. *)
Definition perform (c : Call) (w : World) : report * World :=
  match c with
  | CallStartProcess name argv attr =>
      let '((p, e), w') := os_StartProcess name argv attr w in (Report p 0%Z 0%Z e, w')
  | CallPtraceCont pid signal =>
      let '(e, w') := syscall_PtraceCont pid signal w in (Report 0%Z 0%Z 0%Z e, w')
  | CallPtraceGetRegs pid regsout =>
      let '(e, w') := syscall_PtraceGetRegs pid regsout w in (Report 0%Z 0%Z 0%Z e, w')
  | CallPtracePeekText pid addr out =>
      let '((n, e), w') := syscall_PtracePeekText pid addr out w in (Report 0%Z n 0%Z e, w')
  | CallPtracePokeText pid addr data =>
      let '((n, e), w') := syscall_PtracePokeText pid addr data w in (Report 0%Z n 0%Z e, w')
  | CallPtraceSetOptions pid options =>
      let '(e, w') := syscall_PtraceSetOptions pid options w in (Report 0%Z 0%Z 0%Z e, w')
  | CallPtraceSetRegs pid regs =>
      let '(e, w') := syscall_PtraceSetRegs pid regs w in (Report 0%Z 0%Z 0%Z e, w')
  | CallPtraceSingleStep pid =>
      let '(e, w') := syscall_PtraceSingleStep pid w in (Report 0%Z 0%Z 0%Z e, w')
  | CallWait4 pid options =>
      let '((n, st, e), w') := syscall_Wait4 pid options w in (Report 0%Z n st e, w')
  end.

(** The six methods whose closure only returns what the primitive reports. *)
Definition plain (mth : method) : bool :=
  match mth with
  | PtracePeek _ _ _ | PtracePoke _ _ _ | Wait _ => false
  | _ => true
  end.

(** The byte count a peek or a poke asks for. *)
Definition requested (mth : method) : option int :=
  match mth with
  | PtracePeek _ _ out => Some (len out)
  | PtracePoke _ _ data => Some (len data)
  | _ => None
  end.

Definition session (mprogs : list (list method)) : list (list request) :=
  (λ p : list method, closure <$> p) <$> mprogs.

Definition method_at (mprogs : list (list method)) (κ : key) : option method :=
  p ← mprogs !! κ.1; p !! κ.2.

(** The primitives the closures of calls [κs] invoke, run on thread [t]. *)
Definition invoked (mprogs : list (list method)) (t : tid) (κs : list key) : list (tid * Call) :=
  omap (λ κ, mth ← method_at mprogs κ; Some (t, primitive_of mth)) κs.

(** The schedule on which the executor, alone, runs to the end of
    [ptraceRun] once [fc] is closed. *)
Definition drain (m : machine) : list action :=
  match worker m with
  | WInit => [AStart; AExit]
  | WIdle => [AExit]
  | WHave κ _ => [ABegin; AEnd; AAnswer κ.1; AExit]
  | WRunning κ _ => [AEnd; AAnswer κ.1; AExit]
  | WSend κ _ => [AAnswer κ.1; AExit]
  | WDone => []
  end.

End Proxy.

Arguments Store : clear implicits.
Arguments func : clear implicits.
Arguments request : clear implicits.
Arguments wstate : clear implicits.
Arguments client : clear implicits.
Arguments event : clear implicits.
Arguments machine : clear implicits.
Arguments round : clear implicits.

(** ** A small kernel to run the machine on

    The state counts the primitives performed.  Every launch gives a fresh
    handle; a peek or a poke at address 0 fails with EFAULT, and elsewhere
    moves at most three bytes; reading registers fails with ESRCH; a wait
    reports the pid it was asked for, stopped by SIGTRAP. *)
Module Toy.

Definition EFAULT : error := Some (OsError 14).
Definition ESRCH : error := Some (OsError 3).

Definition transfer (addr : uintptr) (bytes : list byte) (w : nat) : (int * error) * nat :=
  if (addr =? 0)%Z then ((0%Z, EFAULT), S w)
  else ((Z.of_nat (length bytes `min` 3), None), S w).

#[export] Instance kernel : Kernel nat := {|
  os_StartProcess := λ name argv attr w, ((Z.of_nat (500 + w), None), S w);
  syscall_PtraceCont := λ pid signal w, (None, S w);
  syscall_PtraceGetRegs := λ pid regsout w, (ESRCH, S w);
  syscall_PtracePeekText := λ pid addr out w, transfer addr out w;
  syscall_PtracePokeText := λ pid addr data w, transfer addr data w;
  syscall_PtraceSetOptions := λ pid options w, (None, S w);
  syscall_PtraceSetRegs := λ pid regs w, (None, S w);
  syscall_PtraceSingleStep := λ pid w, (None, S w);
  syscall_Wait4 := λ pid options w, ((pid, 1407%Z, None), S w);
|}.

Definition s0 : Store nat := {| world := 0; trace := []; vars := ∅ |}.

Definition eight : list byte := replicate 8 Byte.x00.
Definition four : list byte := [Byte.xde; Byte.xad; Byte.xbe; Byte.xef].

(** Two clients: one launches, waits and resumes; the other peeks eight
    bytes, pokes four, and peeks at address 0. *)
Definition calls : list (list method) :=
  [[StartProcess "/bin/true" ["true"] 0%Z; Wait 500%Z; PtraceCont 500%Z 0%Z];
   [PtracePeek 500%Z 4096%Z eight; PtracePoke 500%Z 4096%Z four; PtracePeek 500%Z 0%Z eight]].

Definition start : machine nat := init 0 0 7 (session calls) s0.

(** One call from hand-off to return. *)
Definition call (g : nat) : list action := [AHandOff g; ABegin; AEnd; AAnswer g].

(** All six calls, the two clients taking turns. *)
Definition schedule : list action :=
  [AMigrate 9; AStart] ++ call 1 ++ call 0 ++ call 0 ++ call 1 ++ call 1 ++ call 0.

Definition final : machine nat := default start (exec schedule start).

(** Three calls, and [fc] closed while the executor holds the fourth
    closure. *)
Definition closing : list action :=
  [AStart] ++ call 0 ++ call 1 ++ call 0 ++ [AHandOff 1; AClose].

Definition closed_state : machine nat := default start (exec closing start).

(** A machine whose request channel has room for two closures. *)
Definition buffered : machine nat := init 2 0 7 (session calls) s0.

End Toy.

(** ** More to observe of a run *)

Section Observations.

Context {World : Type} {kernel : Kernel World}.

(** The ranks of the calls of client [g] that have returned, in the order
    of their returns. *)
Definition returns_of (g : nat) (l : list (event World)) : list nat :=
  omap (λ ev, match ev with
              | EvReturn κ _ _ _ => if decide (κ.1 = g) then Some κ.2 else None
              | _ => None
              end) l.

(** The kernel performing invocations one after another. *)
Definition performed (w : World) (cs : list Call) : World :=
  foldl (λ w c, (perform c w).2) w cs.

(** The schedule on which the executor finishes the round in progress, and
    the one on which it then serves the next call of client [g]. *)
Definition settle (m : machine World) : list action :=
  match worker m with
  | WHave κ _ => [ABegin; AEnd; AAnswer κ.1]
  | WRunning κ _ => [AEnd; AAnswer κ.1]
  | WSend κ _ => [AAnswer κ.1]
  | _ => []
  end.

Definition serve (g : nat) : list action := [AHandOff g; ABegin; AEnd; AAnswer g].

End Observations.

(** ** Reading the counts back from a partial-transfer error *)

Fixpoint strip_prefix (p s : string) : option string :=
  match p, s with
  | EmptyString, _ => Some s
  | String a p', String b s' => if Ascii.eqb a b then strip_prefix p' s' else None
  | String _ _, EmptyString => None
  end.

(** The text before the first space, and the text from that space on. *)
Fixpoint until_space (s : string) : string * string :=
  match s with
  | EmptyString => (EmptyString, EmptyString)
  | String a s' =>
      if Ascii.eqb a " " then (EmptyString, s)
      else let '(x, y) := until_space s' in (String a x, y)
  end.

(** The two counts of a text [<start><n> bytes, want <N>]. *)
Definition read_counts (start msg : string) : option (int * int) :=
  rest ← strip_prefix start msg;
  let '(a, rest') := until_space rest in
  b ← strip_prefix " bytes, want " rest';
  n ← read_d a; N ← read_d b; Some (n, N).

(** ** dwtest/dwloc_test.go: the platform guard and the per-architecture
    tables *)
Module Dwtest.

(** The pairs GOOS/GOARCH on which [TestDwarfVariableLocations] does not
    skip. *)
Definition supported (goos goarch : string) : bool :=
  let pair := goos +:+ "/" +:+ goarch in
  bool_decide (pair ∈ ["linux/amd64"; "linux/arm64"; "windows/amd64";
                       "darwin/amd64"; "darwin/arm64"]).

(** A double quote. *)
Definition dq : string := String (ascii_of_nat 34) EmptyString.

(** The map [expected] of [testIssue47354]. *)
Definition expected47354 : gmap string string :=
  <["amd64" := "1: in-param " +:+ dq +:+ "s" +:+ dq +:+ " loc=" +:+ dq +:+
                "{ [0: S=8 RAX] [1: S=8 RBX] }" +:+ dq]>
  (<["arm64" := "1: in-param " +:+ dq +:+ "s" +:+ dq +:+ " loc=" +:+ dq +:+
                "{ [0: S=8 R0] [1: S=8 R1] }" +:+ dq]> ∅).

(** [testIssue47354], given the output [got] of the harness: whether it
    reports a failure.  A key that a Go map lacks reads as the empty
    string. *)
Definition testIssue47354 (goarch got : string) : bool :=
  let want := default "" (expected47354 !! goarch) in
  bool_decide (got ≠ want).

(** The test at the top of [testIssue60493]: whether it skips. *)
Definition testIssue60493_skips (goarch : string) : bool :=
  bool_decide (goarch ≠ "amd64") && bool_decide (goarch ≠ "arm64").

End Dwtest.

Section ProxyFacts.

Context {World : Type} {kernel : Kernel World}.

Implicit Types (m : machine World) (κ ρ : key) (f : func World) (e : error).
Implicit Types (s : Store World) (rs : list (round World)) (c : client World).
Implicit Types (progs : list (list (request World))) (tl : list (event World)).

Lemma chain_snoc s0 rs s κ f t e s' :
  chain s0 rs s → f t s = (e, s') → chain s0 (rs ++ [Round κ f t e s s']) s'.
Proof.
  revert s0. induction rs as [|r rs IH]; simpl; intros s0.
  - intros -> Hf. done.
  - intros (Hpre & Hrun & Hrest) Hf. split_and!; auto.
Qed.

Lemma sending_Some m g c κ f :
  sending m g = Some (c, κ, f) →
  clients m !! g = Some c ∧ waiting c = false ∧ κ = (g, pc c) ∧
  ∃ r, prog c !! pc c = Some r ∧ f = r κ.
Proof.
  unfold sending. intros H.
  destruct (clients m !! g) as [c'|] eqn:Hc; simpl in H; [|done].
  destruct (waiting c') eqn:Hw; [done|].
  destruct (prog c' !! pc c') as [r|] eqn:Hr; simpl in H; [|done].
  simplify_eq. eauto 10.
Qed.

Lemma receiving_Some m g c :
  receiving m g = Some c → clients m !! g = Some c ∧ waiting c = true.
Proof.
  unfold receiving. intros H.
  destruct (clients m !! g) as [c'|] eqn:Hc; simpl in H; [|done].
  destruct (waiting c') eqn:Hw; by simplify_eq.
Qed.

Lemma ptraceRun_entry_Proceeds a b :
  ptraceRun_entry a b = Proceeds ↔ a = 0 ∧ b = 0.
Proof.
  unfold ptraceRun_entry. destruct a, b; simpl; split; try done; intros [??]; done.
Qed.

Lemma over_insert m g c c' κ cl :
  clients m !! g = Some c → pc c ≤ pc c' →
  cl = <[g := c']> (clients m) →
  over m κ → ∃ c2, cl !! κ.1 = Some c2 ∧ κ.2 < pc c2.
Proof.
  intros Hg Hpc -> (c1 & H1 & Hlt).
  destruct (decide (κ.1 = g)) as [Heq|Hne].
  - exists c'. rewrite Heq, list_lookup_insert_eq by (by eapply lookup_lt_Some).
    rewrite Heq in H1. split; [done|]. simplify_eq. lia.
  - exists c1. by rewrite list_lookup_insert_ne.
Qed.

Lemma started_caps progs s0 m :
  Inv progs s0 m → worker m ≠ WInit →
  cap (fc m) = 0 ∧ cap (ec m) = 0 ∧ pinned m = true ∧ buf (fc m) = [].
Proof.
  intros HI Hw. destruct (inv_started _ _ _ HI Hw) as (Hfc & Hec & Hpin).
  split_and!; try done.
  pose proof (inv_fc_buf _ _ _ HI) as Hlen. rewrite Hfc in Hlen.
  destruct (buf (fc m)); [done|simpl in Hlen; lia].
Qed.

Lemma progs_insert progs m g c c' :
  prog <$> clients m = progs → clients m !! g = Some c → prog c' = prog c →
  prog <$> <[g := c']> (clients m) = progs.
Proof.
  intros <- Hg Hp. rewrite list_fmap_insert, Hp.
  apply list_insert_id. by rewrite list_lookup_fmap, Hg.
Qed.

Lemma request_at_client progs m g c k (r : request World) :
  prog <$> clients m = progs → clients m !! g = Some c → prog c !! k = Some r →
  request_at progs (g, k) = Some r.
Proof.
  intros <- Hg Hr. unfold request_at; simpl.
  by rewrite list_lookup_fmap, Hg.
Qed.

Lemma busy_sent m (cl : list (client World)) g c :
  quiet m → clients m !! g = Some c → cl = <[g := sent c]> (clients m) →
  (∃ c', cl !! g = Some c' ∧ pc c' = pc c ∧ waiting c' = true) ∧
  (∀ g' c', g' ≠ g → cl !! g' = Some c' → waiting c' = false).
Proof.
  intros Hq Hg ->. split.
  - exists (sent c). rewrite list_lookup_insert_eq by (by eapply lookup_lt_Some). done.
  - intros g' c' Hne. rewrite list_lookup_insert_ne by done. apply Hq.
Qed.

Lemma quiet_returned m (cl : list (client World)) κ c :
  busy m κ → clients m !! κ.1 = Some c → cl = <[κ.1 := returned c]> (clients m) →
  ∀ g c', cl !! g = Some c' → waiting c' = false.
Proof.
  intros [_ Hothers] Hg -> g c'.
  destruct (decide (g = κ.1)) as [->|Hne].
  - rewrite list_lookup_insert_eq by (by eapply lookup_lt_Some). by intros [= <-].
  - rewrite list_lookup_insert_ne by done. by apply Hothers.
Qed.

Lemma busy_receiver m κ g c :
  busy m κ → clients m !! g = Some c → waiting c = true → κ = (g, pc c).
Proof.
  intros [(c' & Hc' & Hpc & _) Hothers] Hg Hwait.
  destruct (decide (g = κ.1)) as [->|Hne].
  - destruct κ; simpl in *. by simplify_eq.
  - rewrite (Hothers g c Hne Hg) in Hwait. done.
Qed.

Lemma step_Inv progs s0 a m m' :
  Inv progs s0 m → step a m = Some m' → Inv progs s0 m'.
Proof.
  intros HI Hstep.
  pose proof (started_caps _ _ _ HI) as Hcaps.
  destruct HI as [Hprogs Hec Hfc Hstarted (rs & s_end & tl & Hlog & Hchain & Hrs & Hnd & Hcur)].
  unfold step in Hstep. destruct (panicked m) eqn:Hpan; [done|].
  unfold current in Hcur.
  destruct a; simpl in Hstep.
  - (* AStart *)
    destruct (worker m) eqn:Hw; try done.
    destruct Hcur as (-> & -> & Hs & Hq). simpl in Hchain. subst s_end.
    destruct (ptraceRun_entry _ _) eqn:Hentry; injection Hstep as <-.
    + split; simpl; try done.
      exists [], s0, []. unfold history, current; simpl. by split_and!.
    + apply ptraceRun_entry_Proceeds in Hentry as [Hc1 Hc2].
      split; simpl; try done.
      exists [], s0, []. unfold history, current; simpl. split_and!; auto.
  - (* AMigrate *)
    destruct (pinned m) eqn:Hpin; [done|]. injection Hstep as <-.
    assert (worker m = WInit) as Hw.
    { destruct (worker m) eqn:Hw; try done; destruct Hcaps as (_ & _ & ? & _); congruence. }
    rewrite Hw in Hcur. destruct Hcur as (-> & -> & Hs & Hq). simpl in Hchain. subst s_end.
    split; simpl; try done.
    exists [], s0, []. unfold history, current; simpl. rewrite Hw. by split_and!.
  - (* AHandOff *)
    destruct (worker m) eqn:Hw; try done.
    destruct (closed (fc m)); [done|]. destruct (buf (fc m)) eqn:Hbuf; [|done].
    destruct (sending m g) as [[[c κ] f]|] eqn:Hsend; simpl in Hstep; [|done].
    apply sending_Some in Hsend as (Hg & Hwait & -> & r & Hr & ->).
    destruct Hcur as (-> & Hs & Hq). injection Hstep as <-.
    split; simpl; [by eapply progs_insert|done|by rewrite Hbuf|by intros _; apply Hstarted|].
    eexists rs, (store m), _. unfold history, current; simpl. split_and!; try done.
    + by rewrite Hlog, app_nil_r.
    + by rewrite Hs.
    + eapply Forall_impl; [exact Hrs|]. intros r0 (? & Hover & ?). split_and!; try done.
      eapply over_insert; [exact Hg| |done|exact Hover]. done.
    + by eapply busy_sent.
    + exists r. split; [|done]. by eapply request_at_client.
  - (* AEnqueue *)
    destruct (closed (fc m)); [done|].
    destruct (decide _) as [Hroom|]; [|done].
    destruct (sending m g) as [[[c κ] f]|] eqn:Hsend; simpl in Hstep; [|done].
    apply sending_Some in Hsend as (Hg & Hwait & -> & r & Hr & ->).
    injection Hstep as <-.
    destruct (worker m) eqn:Hw;
      try (destruct Hcaps as (Hc1 & _); [done|]; rewrite Hc1 in Hroom; lia).
    destruct Hcur as (-> & -> & Hs & Hq). simpl in Hchain. subst s_end.
    split; simpl; [by eapply progs_insert|done| |done|].
    { rewrite length_app; simpl; lia. }
    exists [], s0, []. unfold history, current; simpl.
    split_and!; try done. intros Hc; lia.
  - (* ADequeue *)
    destruct (worker m) eqn:Hw; try done.
    destruct Hcaps as (_ & _ & _ & Hb); [done|]. by rewrite Hb in Hstep.
  - (* ABegin *)
    destruct (worker m) eqn:Hw; try done. injection Hstep as <-.
    destruct Hcur as (-> & Hs & Hbusy & Hsent).
    split; simpl; [done..|by intros _; apply Hstarted|].
    eexists rs, s_end, _. unfold history, current; simpl. split_and!; try done.
    by rewrite Hlog, <- app_assoc.
  - (* AEnd *)
    destruct (worker m) eqn:Hw; try done.
    destruct (f (wthread m) (store m)) as [e s'] eqn:Hf. injection Hstep as <-.
    destruct Hcur as (-> & Hs & Hbusy & Hsent).
    split; simpl; [done..|by intros _; apply Hstarted|].
    eexists rs, s_end, _. unfold history, current; simpl. split_and!; try done.
    + by rewrite Hlog, <- app_assoc.
    + exists f. rewrite <- Hs. by split_and!.
  - (* AAnswer *)
    destruct (worker m) eqn:Hw; try done.
    destruct (buf (ec m)) eqn:Hbuf; [|done].
    destruct (receiving m g) as [c|] eqn:Hrecv; simpl in Hstep; [|done].
    apply receiving_Some in Hrecv as (Hg & Hwait).
    injection Hstep as <-.
    destruct Hcur as (f & -> & Hf & Hbusy & Hsent).
    pose proof (busy_receiver _ _ _ _ Hbusy Hg Hwait) as ->.
    split; simpl; [by eapply progs_insert|done..|by intros _; apply Hstarted|].
    exists (rs ++ [Round (g, pc c) f (wthread m) e s_end (store m)]), (store m), [].
    unfold history, current; simpl. split_and!; try done.
    + rewrite Hlog, fmap_app, concat_app; simpl. by rewrite <- !app_assoc.
    + by apply chain_snoc.
    + apply Forall_app; split.
      * eapply Forall_impl; [exact Hrs|]. intros r0 (? & Hover & ?). split_and!; try done.
        eapply over_insert; [exact Hg| |done|exact Hover]. simpl; lia.
      * apply Forall_singleton; simpl. split_and!; try done.
        unfold over; simpl.
        exists (returned c). rewrite list_lookup_insert_eq by (by eapply lookup_lt_Some).
        split; [done|simpl; lia].
    + rewrite fmap_app; simpl. apply NoDup_app. split_and!; [done| |apply NoDup_singleton].
      intros κ Hin Hin2. apply list_elem_of_singleton in Hin2 as ->.
      apply list_elem_of_fmap in Hin as (r0 & Hk & Hr0).
      rewrite Forall_forall in Hrs. destruct (Hrs _ Hr0) as (_ & (c2 & Hc2 & Hlt) & _).
      rewrite <- Hk in Hc2, Hlt. simpl in *. simplify_eq. lia.
    + unfold quiet; simpl. by eapply (quiet_returned m _ (g, pc c)).
  - (* AEnqueueAnswer *)
    destruct (worker m) eqn:Hw; try done.
    destruct Hcaps as (_ & Hc2 & _); [done|].
    destruct (decide _) as [Hroom|]; [|done]. rewrite Hc2 in Hroom. lia.
  - (* ATakeAnswer *)
    by rewrite Hec in Hstep.
  - (* AClose *)
    destruct (closed (fc m)); [done|]. injection Hstep as <-.
    split; simpl; try done.
    exists rs, s_end, tl. unfold history, current; simpl. by split_and!.
  - (* AExit *)
    destruct (worker m) eqn:Hw; try done.
    destruct (closed (fc m)); [|done]. destruct (buf (fc m)) eqn:Hbuf; [|done].
    injection Hstep as <-. destruct Hcur as (-> & Hs & Hq).
    split; simpl; [done|done|by rewrite Hbuf|by intros _; apply Hstarted|].
    exists rs, s_end, []. unfold history, current; simpl. by split_and!.
  - (* ASendClosed *)
    destruct (closed (fc m)); [|done].
    destruct (sending m g) as [[[c κ] f]|]; simpl in Hstep; [|done].
    injection Hstep as <-.
    split; simpl; try done.
    exists rs, s_end, tl. unfold history, current; simpl. by split_and!.
Qed.

Lemma init_Inv cap_fc cap_ec t progs s0 :
  Inv progs s0 (init cap_fc cap_ec t progs s0).
Proof.
  split; simpl; try done.
  - rewrite <- list_fmap_compose. apply list_fmap_id.
  - lia.
  - exists [], s0, []. unfold history, current; simpl. split_and!; try done.
    + constructor.
    + intros _ g c Hg. unfold init in Hg; simpl in Hg.
      apply list_lookup_fmap_Some in Hg as (p & -> & _). done.
Qed.

Lemma exec_Inv progs s0 acts m m' :
  Inv progs s0 m → exec acts m = Some m' → Inv progs s0 m'.
Proof.
  revert m. induction acts as [|a acts IH]; simpl; intros m HI Hexec.
  - by simplify_eq.
  - destruct (step a m) as [m1|] eqn:Hstep; simpl in Hexec; [|done].
    eapply IH; [|done]. by eapply step_Inv.
Qed.

Lemma run_Inv cap_fc cap_ec t progs s0 acts m :
  exec acts (init cap_fc cap_ec t progs s0) = Some m → Inv progs s0 m.
Proof. apply exec_Inv, init_Inv. Qed.

(** *** The views of a log made of rounds *)

Lemma accepted_app (l1 l2 : list (event World)) :
  accepted (l1 ++ l2) = accepted l1 ++ accepted l2.
Proof. apply omap_app. Qed.
Lemma begun_app (l1 l2 : list (event World)) : begun (l1 ++ l2) = begun l1 ++ begun l2.
Proof. apply omap_app. Qed.
Lemma ended_app (l1 l2 : list (event World)) : ended (l1 ++ l2) = ended l1 ++ ended l2.
Proof. apply omap_app. Qed.
Lemma answered_app (l1 l2 : list (event World)) :
  answered (l1 ++ l2) = answered l1 ++ answered l2.
Proof. apply omap_app. Qed.

Lemma accepted_rounds rs :
  accepted (concat (round_events <$> rs)) = (λ r, (r_key r, r_fn r)) <$> rs.
Proof. induction rs as [|r rs IH]; simpl; [done|]. by f_equal. Qed.
Lemma begun_rounds rs :
  begun (concat (round_events <$> rs)) = (λ r, (r_key r, r_thr r)) <$> rs.
Proof. induction rs as [|r rs IH]; simpl; [done|]. by f_equal. Qed.
Lemma ended_rounds rs :
  ended (concat (round_events <$> rs)) = (λ r, (r_key r, r_err r)) <$> rs.
Proof. induction rs as [|r rs IH]; simpl; [done|]. by f_equal. Qed.
Lemma answered_rounds rs :
  answered (concat (round_events <$> rs)) = (λ r, (r_key r, r_err r)) <$> rs.
Proof. induction rs as [|r rs IH]; simpl; [done|]. by f_equal. Qed.

(** The events of the round in progress, by the state of the executor. *)
Lemma current_tail progs m rs s_end tl :
  current progs m rs s_end tl →
  (tl = [] ∧ store m = s_end) ∨
  (∃ κ f, tl = [EvAccept κ f] ∧ store m = s_end ∧ worker m = WHave κ f) ∨
  (∃ κ f, tl = [EvAccept κ f; EvBegin κ (wthread m)] ∧ store m = s_end ∧
          worker m = WRunning κ f) ∨
  (∃ κ f e, tl = [EvAccept κ f; EvBegin κ (wthread m); EvEnd κ e s_end (store m)] ∧
            f (wthread m) s_end = (e, store m) ∧ worker m = WSend κ e).
Proof.
  unfold current. destruct (worker m) as [| |κ f|κ f|κ e|].
  - intros (_ & -> & <- & _). by left.
  - intros (-> & <- & _). by left.
  - intros (-> & <- & _). right; left. eauto.
  - intros (-> & <- & _). right; right; left. eauto.
  - intros (f & -> & Hf & _). right; right; right. eauto 10.
  - intros (-> & <- & _). by left.
Qed.

Lemma serial_rounds rs tl :
  serial false (concat (round_events <$> rs) ++ tl) = serial false tl.
Proof. induction rs as [|r rs IH]; simpl; done. Qed.

Lemma elem_of_rounds rs (ev : event World) :
  ev ∈ concat (round_events <$> rs) → ∃ r, r ∈ rs ∧ ev ∈ round_events r.
Proof.
  induction rs as [|r rs IH]; simpl.
  - by intros ?%elem_of_nil.
  - change (ev ∈ round_events r ++ concat (round_events <$> rs) → ∃ r0, r0 ∈ r :: rs ∧ ev ∈ round_events r0).
    intros [Hin|Hin]%elem_of_app.
    + exists r. split; [apply list_elem_of_here|done].
    + destruct (IH Hin) as (r0 & ? & ?). exists r0. split; [by apply list_elem_of_further|done].
Qed.

(** A return in the log closes a round, and the round is the caller's. *)
Lemma return_round progs s0 m rs s_end tl κ ρ e fr :
  history progs s0 m rs s_end tl → EvReturn κ ρ e fr ∈ log m →
  ∃ r, r ∈ rs ∧ r_key r = κ ∧ ρ = κ ∧ r_err r = e ∧ fr = frame κ (r_post r).
Proof.
  intros (Hlog & _ & _ & _ & Hcur) Hin. rewrite Hlog in Hin.
  apply elem_of_app in Hin as [Hin|Hin].
  - apply elem_of_rounds in Hin as (r & Hr & Hin).
    exists r. unfold round_events in Hin.
    repeat (apply elem_of_cons in Hin as [Hin|Hin]; [try done|]).
    + by simplify_eq.
    + by apply elem_of_nil in Hin.
  - apply current_tail in Hcur
      as [[-> _]|[(? & ? & -> & _)|[(? & ? & -> & _)|(? & ? & ? & -> & _)]]];
    repeat (apply elem_of_cons in Hin as [Hin|Hin]; [done|]);
    by apply elem_of_nil in Hin.
Qed.

(** The events of a round stand together in the log. *)
Lemma round_in_log progs s0 m rs s_end tl r :
  history progs s0 m rs s_end tl → r ∈ rs →
  ∃ l1 l2, log m = l1 ++ round_events r ++ l2 ∧
           r_fn r (r_thr r) (r_pre r) = (r_err r, r_post r).
Proof.
  intros (Hlog & Hchain & _) Hin.
  apply list_elem_of_split in Hin as (rs1 & rs2 & ->).
  exists (concat (round_events <$> rs1)), (concat (round_events <$> rs2) ++ tl). split.
  - rewrite Hlog, fmap_app, concat_app, fmap_cons. simpl. by rewrite <- !app_assoc.
  - clear Hlog. revert s0 Hchain. induction rs1 as [|r1 rs1 IH]; simpl; intros s0.
    + by intros (-> & ? & _).
    + intros (_ & _ & Hrest). by eapply IH.
Qed.

(** The four views of the log of a run. *)
Lemma log_views progs s0 m rs s_end tl :
  history progs s0 m rs s_end tl →
  accepted (log m) = ((λ r, (r_key r, r_fn r)) <$> rs) ++ accepted tl ∧
  begun (log m) = ((λ r, (r_key r, r_thr r)) <$> rs) ++ begun tl ∧
  ended (log m) = ((λ r, (r_key r, r_err r)) <$> rs) ++ ended tl ∧
  answered (log m) = ((λ r, (r_key r, r_err r)) <$> rs) ++ answered tl.
Proof.
  intros (-> & _).
  rewrite accepted_app, begun_app, ended_app, answered_app.
  by rewrite accepted_rounds, begun_rounds, ended_rounds, answered_rounds.
Qed.

(** C2. Whatever the clients and the schedule, the log of a run of the
    machine never has two closures running at once (a closure begins only
    when none is begun and not ended); the executor begins, ends and answers
    the closures in the order in which it received them, and has received at
    most one that it has not answered; and a call that returns has received
    the answer to its own closure, which is one the executor sent. *)
Theorem serial_fifo_paired cap_fc cap_ec t0 progs s0 acts m :
  exec acts (init cap_fc cap_ec t0 progs s0) = Some m →
  (serial false (log m) = true ∧ in_flight (log m) ≤ 1) ∧
  ((begun (log m)).*1 `prefix_of` (accepted (log m)).*1 ∧
   (ended (log m)).*1 `prefix_of` (begun (log m)).*1 ∧
   answered (log m) `prefix_of` ended (log m) ∧
   length (accepted (log m)) ≤ length (answered (log m)) + 1) ∧
  (∀ i κ ρ e fr, log m !! i = Some (EvReturn κ ρ e fr) →
     ρ = κ ∧ (ρ, e) ∈ answered (log m)).
Proof.
  intros Hrun. apply run_Inv in Hrun as [_ _ _ _ (rs & s_end & tl & Hhist)].
  pose proof (log_views _ _ _ _ _ _ Hhist) as (Hacc & Hbeg & Hend & Hans).
  split_and!.
  - destruct Hhist as (-> & _ & _ & _ & Hcur). rewrite serial_rounds.
    apply current_tail in Hcur
      as [[-> _]|[(? & ? & -> & _)|[(? & ? & -> & _)|(? & ? & ? & -> & _)]]]; done.
  - unfold in_flight. rewrite Hbeg, Hend, !length_app, !length_fmap.
    destruct Hhist as (_ & _ & _ & _ & Hcur).
    apply current_tail in Hcur
      as [[-> _]|[(? & ? & -> & _)|[(? & ? & -> & _)|(? & ? & ? & -> & _)]]];
      simpl; lia.
  - rewrite Hacc, Hbeg, !fmap_app, <- !list_fmap_compose.
    destruct Hhist as (_ & _ & _ & _ & Hcur).
    apply current_tail in Hcur
      as [[-> _]|[(? & ? & -> & _)|[(? & ? & -> & _)|(? & ? & ? & -> & _)]]];
      simpl; rewrite ?app_nil_r; try done; by apply prefix_app_r.
  - rewrite Hbeg, Hend, !fmap_app, <- !list_fmap_compose.
    destruct Hhist as (_ & _ & _ & _ & Hcur).
    apply current_tail in Hcur
      as [[-> _]|[(? & ? & -> & _)|[(? & ? & -> & _)|(? & ? & ? & -> & _)]]];
      simpl; rewrite ?app_nil_r; try done; by apply prefix_app_r.
  - rewrite Hend, Hans.
    destruct Hhist as (_ & _ & _ & _ & Hcur).
    apply current_tail in Hcur
      as [[-> _]|[(? & ? & -> & _)|[(? & ? & -> & _)|(? & ? & ? & -> & _)]]];
      simpl; rewrite ?app_nil_r; try done; by apply prefix_app_r.
  - rewrite Hacc, Hans, !length_app, !length_fmap.
    destruct Hhist as (_ & _ & _ & _ & Hcur).
    apply current_tail in Hcur
      as [[-> _]|[(? & ? & -> & _)|[(? & ? & -> & _)|(? & ? & ? & -> & _)]]];
      simpl; lia.
  - intros i κ ρ e fr Hi. apply list_elem_of_lookup_2 in Hi.
    destruct (return_round _ _ _ _ _ _ _ _ _ _ Hhist Hi) as (r & Hr & <- & -> & <- & _).
    split; [done|]. rewrite Hans. apply elem_of_app. left.
    apply list_elem_of_fmap. by exists r.
Qed.

(** *** The loop as a function *)

Lemma ptraceRun_loop_app (fs1 fs2 : list (func World)) t s :
  ptraceRun_loop (fs1 ++ fs2) t s =
  ((ptraceRun_loop fs1 t s).1 ++ (ptraceRun_loop fs2 t (ptraceRun_loop fs1 t s).2).1,
   (ptraceRun_loop fs2 t (ptraceRun_loop fs1 t s).2).2).
Proof.
  revert s. induction fs1 as [|f fs1 IH]; simpl; intros s.
  - by destruct (ptraceRun_loop fs2 t s).
  - destruct (f t s) as [e s1]. rewrite IH.
    destruct (ptraceRun_loop fs1 t s1) as [es s2]; simpl.
    by destruct (ptraceRun_loop fs2 t s2).
Qed.

Lemma ptraceRun_loop_length (fs : list (func World)) t s :
  length (ptraceRun_loop fs t s).1 = length fs.
Proof.
  revert s. induction fs as [|f fs IH]; simpl; intros s; [done|].
  destruct (f t s) as [e s1]. specialize (IH s1).
  destruct (ptraceRun_loop fs t s1) as [es s2]; simpl in *. by rewrite IH.
Qed.

Lemma ptraceRun_loop_lookup (fs : list (func World)) t s i f :
  fs !! i = Some f →
  (ptraceRun_loop fs t s).1 !! i = Some (f t (ptraceRun_loop (take i fs) t s).2).1.
Proof.
  revert s i. induction fs as [|f0 fs IH]; intros s i; [done|].
  destruct i as [|i]; simpl.
  - intros [= ->]. destruct (f t s) as [e s1]. by destruct (ptraceRun_loop fs t s1).
  - intros Hi. destruct (f0 t s) as [e s1]. specialize (IH s1 i Hi).
    destruct (ptraceRun_loop fs t s1) as [es s2]; simpl in *. rewrite IH.
    by destruct (ptraceRun_loop (take i fs) t s1).
Qed.

(** A chain of rounds on one thread is a run of the loop. *)
Lemma ptraceRun_loop_chain t s0 rs s_end :
  chain s0 rs s_end → Forall (λ r, r_thr r = t) rs →
  ptraceRun_loop (r_fn <$> rs) t s0 = (r_err <$> rs, s_end).
Proof.
  revert s0. induction rs as [|r rs IH]; intros s0.
  - simpl. by intros ->.
  - rewrite !fmap_cons. cbn [ptraceRun_loop chain].
    intros (<- & Hf & Hrest) [Ht Hall]%Forall_cons. rewrite Ht in Hf.
    rewrite Hf, (IH _ Hrest Hall). done.
Qed.

(** C4. In every run of the machine, the values the executor has sent on
    [ec] are, in order, the first values of [ptraceRun_loop] on the closures
    it has received from [fc], answering the same calls in the same order;
    it has received at most one closure more than it has sent values, and
    none more when it is back in [range fc] or has returned, where the store
    too is the one the loop gives. [ptraceRun_loop] gives one value per
    closure, the i-th being what the i-th closure returns when called after
    the ones before it. *)
Theorem executor_maps_closures cap_fc cap_ec t0 progs s0 acts m :
  exec acts (init cap_fc cap_ec t0 progs s0) = Some m →
  let fs := (accepted (log m)).*2 in
  let out := ptraceRun_loop fs (wthread m) s0 in
  (answered (log m)).*2 = take (length (answered (log m))) out.1 ∧
  (answered (log m)).*1 = take (length (answered (log m))) (accepted (log m)).*1 ∧
  length (accepted (log m)) ≤ length (answered (log m)) + 1 ∧
  (worker m = WIdle ∨ worker m = WDone →
     (answered (log m)).*2 = out.1 ∧ store m = out.2) ∧
  length out.1 = length fs ∧
  (∀ i f, fs !! i = Some f →
     out.1 !! i = Some (f (wthread m) (ptraceRun_loop (take i fs) (wthread m) s0).2).1).
Proof.
  intros Hrun fs out.
  apply run_Inv in Hrun as [_ _ _ _ (rs & s_end & tl & Hhist)].
  pose proof (log_views _ _ _ _ _ _ Hhist) as (Hacc & _ & _ & Hans).
  destruct Hhist as (_ & Hchain & Hrs & _ & Hcur).
  assert (ptraceRun_loop (r_fn <$> rs) (wthread m) s0 = (r_err <$> rs, s_end)) as Hloop.
  { apply ptraceRun_loop_chain; [done|]. eapply Forall_impl; [exact Hrs|]. by intros r (? & _). }
  assert (fs = (r_fn <$> rs) ++ (accepted tl).*2) as Hfs.
  { unfold fs. by rewrite Hacc, fmap_app, <- list_fmap_compose. }
  assert ((answered (log m)).*2 = r_err <$> rs ∧ (answered (log m)).*1 = r_key <$> rs ∧
          answered tl = [] ∧ length (accepted tl) ≤ 1 ∧
          (worker m = WIdle ∨ worker m = WDone → tl = [] ∧ store m = s_end))
    as (Hvals & Hkeys & Htl & Hlen & Hidle).
  { unfold current in Hcur. rewrite Hans. destruct (worker m).
    - destruct Hcur as (_ & -> & ? & _); simpl. rewrite !app_nil_r, <- !list_fmap_compose.
      split_and!; try done; lia.
    - destruct Hcur as (-> & ? & _); simpl. rewrite !app_nil_r, <- !list_fmap_compose.
      split_and!; try done; lia.
    - destruct Hcur as (-> & ? & _); simpl. rewrite !app_nil_r, <- !list_fmap_compose.
      split_and!; try done. by intros [|].
    - destruct Hcur as (-> & ? & _); simpl. rewrite !app_nil_r, <- !list_fmap_compose.
      split_and!; try done. by intros [|].
    - destruct Hcur as (? & -> & ? & _); simpl. rewrite !app_nil_r, <- !list_fmap_compose.
      split_and!; try done. by intros [|].
    - destruct Hcur as (-> & ? & _); simpl. rewrite !app_nil_r, <- !list_fmap_compose.
      split_and!; try done; lia. }
  assert (length (answered (log m)) = length rs) as Hn.
  { by rewrite <- (length_fmap snd), Hvals, length_fmap. }
  split_and!.
  - unfold out. rewrite Hfs, ptraceRun_loop_app, Hloop, Hn, Hvals; simpl.
    rewrite take_app_length'; [done|]. by rewrite length_fmap.
  - rewrite Hkeys, Hn, Hacc, fmap_app, <- list_fmap_compose.
    rewrite take_app_length'; [done|]. by rewrite length_fmap.
  - rewrite Hacc, Hn, length_app, length_fmap. lia.
  - intros Hw. destruct (Hidle Hw) as (-> & ->). unfold out.
    rewrite Hfs; simpl. rewrite app_nil_r, Hloop. done.
  - apply ptraceRun_loop_length.
  - intros i f. apply ptraceRun_loop_lookup.
Qed.

(** C3. The test at the top of [ptraceRun] panics exactly when one of the
    two capacities is greater than zero, and lets the executor proceed
    exactly when both are zero; in the machine, the first step of the
    executor kills the program in the first case and only then, and in the
    second locks the thread and enters the loop. *)
Theorem ptraceRun_panics_iff_buffered m :
  worker m = WInit → panicked m = false →
  ((∃ msg, ptraceRun_entry (cap (fc m)) (cap (ec m)) = Panics msg)
     ↔ 0 < cap (fc m) ∨ 0 < cap (ec m)) ∧
  (ptraceRun_entry (cap (fc m)) (cap (ec m)) = Proceeds
     ↔ cap (fc m) = 0 ∧ cap (ec m) = 0) ∧
  ∃ m', step AStart m = Some m' ∧
    (panicked m' = true ↔ 0 < cap (fc m) ∨ 0 < cap (ec m)) ∧
    (cap (fc m) = 0 ∧ cap (ec m) = 0 →
       panicked m' = false ∧ worker m' = WIdle ∧ pinned m' = true).
Proof.
  intros Hw Hpan. unfold step. rewrite Hpan, Hw.
  pose proof (ptraceRun_entry_Proceeds (cap (fc m)) (cap (ec m))) as Hiff.
  destruct (ptraceRun_entry _ _) as [msg|] eqn:Hentry.
  - assert (0 < cap (fc m) ∨ 0 < cap (ec m)) as Hpos.
    { destruct (cap (fc m)), (cap (ec m)); try lia. by destruct Hiff as [_ Hiff']; discriminate Hiff'. }
    split_and!.
    + split; [done|]. eauto.
    + split; [done|]. lia.
    + eexists. split_and!; [done|simpl|simpl; lia]. done.
  - destruct Hiff as [(Hc1 & Hc2) _]; [done|]. split_and!.
    + split; [by intros [? ?]|lia].
    + done.
    + eexists. split_and!; [done|simpl|by simpl]. split; [done|lia].
Qed.

(** *** Once locked, always on the same thread *)

Lemma step_pinned a m m' :
  step a m = Some m' → pinned m = true → pinned m' = true ∧ wthread m' = wthread m.
Proof.
  unfold step. intros Hstep Hpin.
  destruct (panicked m); [done|].
  destruct a; simpl in Hstep;
    repeat match type of Hstep with
      | context [pinned m] => rewrite Hpin in Hstep
      | match ?x with _ => _ end = _ => destruct x eqn:?; simpl in Hstep; try done
      | (if ?x then _ else _) = _ => destruct x eqn:?; simpl in Hstep; try done
      | _ ≫= _ = _ => apply bind_Some in Hstep as (? & ? & Hstep)
      end;
    try done; try (injection Hstep as <-; by simpl).
Qed.

Lemma exec_pinned acts m m' :
  exec acts m = Some m' → pinned m = true → pinned m' = true ∧ wthread m' = wthread m.
Proof.
  revert m. induction acts as [|a acts IH]; simpl; intros m Hexec Hpin.
  - by simplify_eq.
  - destruct (step a m) as [m1|] eqn:Hstep; simpl in Hexec; [|done].
    destruct (step_pinned _ _ _ Hstep Hpin) as (Hpin1 & <-). by apply IH.
Qed.

(** *** What each closure does *)

Lemma frame_set_frame κ upd s : frame κ (set_frame κ upd s) = upd (frame κ s).
Proof. unfold frame at 1, set_frame; simpl. by rewrite lookup_insert_eq. Qed.

Ltac case_primitive :=
  match goal with
  | H : context [os_StartProcess ?a ?b ?c ?w] |- _ =>
      destruct (os_StartProcess a b c w) as [[? ?] ?] eqn:?
  | H : context [syscall_PtraceCont ?a ?b ?w] |- _ =>
      destruct (syscall_PtraceCont a b w) as [? ?] eqn:?
  | H : context [syscall_PtraceGetRegs ?a ?b ?w] |- _ =>
      destruct (syscall_PtraceGetRegs a b w) as [? ?] eqn:?
  | H : context [syscall_PtracePeekText ?a ?b ?c ?w] |- _ =>
      destruct (syscall_PtracePeekText a b c w) as [[? ?] ?] eqn:?
  | H : context [syscall_PtracePokeText ?a ?b ?c ?w] |- _ =>
      destruct (syscall_PtracePokeText a b c w) as [[? ?] ?] eqn:?
  | H : context [syscall_PtraceSetOptions ?a ?b ?w] |- _ =>
      destruct (syscall_PtraceSetOptions a b w) as [? ?] eqn:?
  | H : context [syscall_PtraceSetRegs ?a ?b ?w] |- _ =>
      destruct (syscall_PtraceSetRegs a b w) as [? ?] eqn:?
  | H : context [syscall_PtraceSingleStep ?a ?w] |- _ =>
      destruct (syscall_PtraceSingleStep a w) as [? ?] eqn:?
  | H : context [syscall_Wait4 ?a ?b ?w] |- _ =>
      destruct (syscall_Wait4 a b w) as [[[? ?] ?] ?] eqn:?
  end.

Ltac run_closure H :=
  unfold closure, startProcess, ptraceCont, ptraceGetRegs, ptracePeek, ptracePoke,
    ptraceSetOptions, ptraceSetRegs, ptraceSingleStep, wait, invoke, perform, primitive_of in *;
  simpl in *; case_primitive; simpl in *;
  repeat match type of H with
    | context [decide ?P] => destruct (decide P); simpl in *
    end.

(** Every closure invokes its primitive, once, on the thread it runs on. *)
Lemma closure_effect mth κ t s e s' :
  closure mth κ t s = (e, s') →
  world s' = (perform (primitive_of mth) (world s)).2 ∧
  trace s' = trace s ++ [(t, primitive_of mth)].
Proof.
  intros H. destruct mth; run_closure H; by simplify_eq.
Qed.

Lemma closure_plain mth κ t s e s' :
  plain mth = true → closure mth κ t s = (e, s') →
  e = rep_err (perform (primitive_of mth) (world s)).1.
Proof.
  intros Hp H. destruct mth; try done; run_closure H; by simplify_eq.
Qed.

Lemma closure_startProcess name argv attr κ t s e s' :
  closure (StartProcess name argv attr) κ t s = (e, s') →
  proc (frame κ s') = rep_proc (perform (CallStartProcess name argv attr) (world s)).1.
Proof.
  intros H. run_closure H. simplify_eq. by rewrite frame_set_frame.
Qed.

Lemma closure_wait pid κ t s e s' :
  closure (Wait pid) κ t s = (e, s') →
  let rep := (perform (CallWait4 pid WALL) (world s)).1 in
  wpid (frame κ s') = rep_n rep ∧ status (frame κ s') = rep_status rep ∧ e = rep_err rep.
Proof.
  intros H. run_closure H. simplify_eq. by rewrite frame_set_frame.
Qed.

Lemma closure_transfer mth N κ t s e s' :
  requested mth = Some N → closure mth κ t s = (e, s') →
  let rep := (perform (primitive_of mth) (world s)).1 in
  e = if decide (rep_err rep ≠ None) then rep_err rep
      else if decide (rep_n rep ≠ N)
           then match mth with
                | PtracePeek _ _ _ => Errorf "ptracePeek: peeked %d bytes, want %d" [rep_n rep; N]
                | _ => Errorf "ptracePoke: poked %d bytes, want %d" [rep_n rep; N]
                end
           else None.
Proof.
  intros HN H. destruct mth; try done; simpl in HN; simplify_eq; run_closure H;
    by simplify_eq.
Qed.

(** *** Runs of the methods *)

Lemma request_at_session mprogs κ :
  request_at (session mprogs) κ = closure <$> method_at mprogs κ.
Proof.
  unfold request_at, method_at, session. rewrite list_lookup_fmap.
  destruct (mprogs !! κ.1) as [p|]; simpl; [|done]. by rewrite list_lookup_fmap.
Qed.

Lemma sent_by_session mprogs κ f mth :
  sent_by (session mprogs) κ f → method_at mprogs κ = Some mth → f = closure mth κ.
Proof.
  intros (r & Hr & ->) Hm. rewrite request_at_session, Hm in Hr. by simplify_eq/=.
Qed.

(** No closure is run twice. *)
Lemma ended_NoDup progs s0 m rs s_end tl :
  history progs s0 m rs s_end tl → NoDup (ended (log m)).*1.
Proof.
  intros Hhist. pose proof (log_views _ _ _ _ _ _ Hhist) as (_ & _ & -> & _).
  destruct Hhist as (_ & _ & Hrs & Hnd & Hcur).
  rewrite fmap_app, <- list_fmap_compose.
  change (NoDup ((r_key <$> rs) ++ (ended tl).*1)).
  unfold current in Hcur. destruct (worker m) as [| |κ f|κ f|κ e|].
  - destruct Hcur as (_ & -> & _). by rewrite app_nil_r.
  - destruct Hcur as (-> & _). by rewrite app_nil_r.
  - destruct Hcur as (-> & _). by rewrite app_nil_r.
  - destruct Hcur as (-> & _). by rewrite app_nil_r.
  - destruct Hcur as (f & -> & _ & [(c & Hc & Hpc & _) _] & _). simpl.
    apply NoDup_app. split_and!; [done| |apply NoDup_singleton].
    intros κ' Hin ->%list_elem_of_singleton.
    apply list_elem_of_fmap in Hin as (r & Hk & Hr).
    rewrite Forall_forall in Hrs. destruct (Hrs _ Hr) as (_ & (c2 & Hc2 & Hlt) & _).
    rewrite <- Hk in Hc2, Hlt. simplify_eq. lia.
  - destruct Hcur as (-> & _). by rewrite app_nil_r.
Qed.

Lemma executions_once (l : list (event World)) κ :
  NoDup (ended l).*1 → κ ∈ (ended l).*1 → executions κ l = 1.
Proof.
  intros Hnd Hin. unfold executions.
  eapply NoDup_count_occ'; [by apply NoDup_ListNoDup|]. by apply list_elem_of_In.
Qed.

(** A call of a method that has returned: it received the answer to its
    own closure, which the executor, locked to its thread, ran once, before
    the return; what the call returns is what that run left. *)
Lemma session_return cap_fc cap_ec t0 mprogs s0 acts m i κ ρ e fr mth :
  exec acts (init cap_fc cap_ec t0 (session mprogs) s0) = Some m →
  log m !! i = Some (EvReturn κ ρ e fr) → method_at mprogs κ = Some mth →
  ρ = κ ∧ pinned m = true ∧ executions κ (log m) = 1 ∧
  ∃ s s' l1 l2 l3,
    log m = l1 ++ EvEnd κ e s s' :: l2 ++ EvReturn κ ρ e fr :: l3 ∧
    closure mth κ (wthread m) s = (e, s') ∧ fr = frame κ s'.
Proof.
  intros Hrun Hi Hmth. apply run_Inv in Hrun as HI.
  destruct HI as [_ _ _ Hstarted (rs & s_end & tl & Hhist)].
  apply list_elem_of_lookup_2 in Hi.
  destruct (return_round _ _ _ _ _ _ _ _ _ _ Hhist Hi) as (r & Hr & Hk & -> & He & ->).
  destruct (round_in_log _ _ _ _ _ _ _ Hhist Hr) as (l1 & l2 & Hlog & Hf).
  pose proof (ended_NoDup _ _ _ _ _ _ Hhist) as Hnd.
  pose proof (log_views _ _ _ _ _ _ Hhist) as (_ & _ & Hend & _).
  destruct Hhist as (_ & _ & Hrs & _ & Hcur).
  rewrite Forall_forall in Hrs. destruct (Hrs _ Hr) as (Ht & _ & Hsent).
  rewrite Hk in Hsent. rewrite (sent_by_session _ _ _ _ Hsent Hmth), Ht in Hf.
  split_and!; [done| |..].
  - apply Hstarted. intros Hw. unfold current in Hcur. rewrite Hw in Hcur.
    destruct Hcur as (-> & _). by apply elem_of_nil in Hr.
  - apply executions_once; [done|]. rewrite Hend, fmap_app, <- list_fmap_compose.
    apply elem_of_app; left. apply list_elem_of_fmap. by exists r.
  - exists (r_pre r), (r_post r), (l1 ++ [EvAccept κ (r_fn r); EvBegin κ (r_thr r)]),
      [EvSent κ e], l2.
    split_and!; [|by rewrite <- He|done].
    rewrite Hlog. unfold round_events. rewrite Hk, He. by rewrite <- !app_assoc.
Qed.

(** The kernel has seen the primitives of the closures that ended, one each
    and in order, all invoked on the executor's thread. *)
Lemma session_trace cap_fc cap_ec t0 mprogs s0 acts m :
  exec acts (init cap_fc cap_ec t0 (session mprogs) s0) = Some m →
  trace (store m) = trace s0 ++ invoked mprogs (wthread m) (ended (log m)).*1.
Proof.
  intros Hrun. apply run_Inv in Hrun as [_ _ _ _ (rs & s_end & tl & Hhist)].
  pose proof (log_views _ _ _ _ _ _ Hhist) as (_ & _ & -> & _).
  destruct Hhist as (_ & Hchain & Hrs & _ & Hcur).
  rewrite fmap_app, <- list_fmap_compose.
  change (trace (store m) =
          trace s0 ++ invoked mprogs (wthread m) ((r_key <$> rs) ++ (ended tl).*1)).
  unfold invoked. rewrite omap_app.
  assert (trace s_end = trace s0 ++ invoked mprogs (wthread m) (r_key <$> rs)) as Hdone.
  { clear Hcur. revert s0 Hchain. induction rs as [|r rs IH]; intros s0.
    - simpl. intros ->. by rewrite app_nil_r.
    - cbn [chain]. intros (<- & Hf & Hrest).
      apply Forall_cons in Hrs as [(Ht & _ & (rq & Hrq & Hfn)) Hrs].
      rewrite (IH Hrs _ Hrest). unfold invoked. rewrite fmap_cons. cbn [omap list_omap].
      rewrite request_at_session in Hrq.
      destruct (method_at mprogs (r_key r)) as [mth|]; simpl in Hrq; [|done].
      simplify_eq. rewrite Hfn in Hf.
      apply closure_effect in Hf as (_ & ->). rewrite Ht. simpl. by rewrite <- app_assoc. }
  fold (invoked mprogs (wthread m) (r_key <$> rs)).
  unfold current in Hcur. destruct (worker m) as [| |κ f|κ f|κ e|].
  - destruct Hcur as (_ & -> & -> & _). by rewrite app_nil_r.
  - destruct Hcur as (-> & -> & _). by rewrite app_nil_r.
  - destruct Hcur as (-> & -> & _). by rewrite app_nil_r.
  - destruct Hcur as (-> & -> & _). by rewrite app_nil_r.
  - destruct Hcur as (f & -> & Hf & _ & (rq & Hrq & Hfn)). simpl.
    rewrite request_at_session in Hrq.
    destruct (method_at mprogs κ) as [mth|]; simpl in Hrq; [|done].
    simplify_eq. apply closure_effect in Hf as (_ & ->). rewrite Hdone. simpl.
    by rewrite <- app_assoc.
  - destruct Hcur as (-> & -> & _). by rewrite app_nil_r.
Qed.

Lemma append_empty_r (x : string) : x +:+ "" = x.
Proof.
  induction x as [|a x IH]; [done|].
  change (String a (x +:+ "") = String a x). by rewrite IH.
Qed.

(** The numeral [%d] prints reads back as the number printed. *)
Lemma read_fmt_d n : read_d (fmt_d n) = Some n.
Proof.
  unfold read_d, fmt_d. rewrite NilZero.isi.
  - simpl. by rewrite DecimalZ.of_to.
  - destruct n; simpl; try done. intros [= H]. by apply Unsigned.to_uint_nonnil in H.
  - destruct n; simpl; try done. intros [= H]. by apply Unsigned.to_uint_nonnil in H.
Qed.

Lemma Sprintf_peek n N :
  Sprintf "ptracePeek: peeked %d bytes, want %d" [n; N] =
  "ptracePeek: peeked " +:+ fmt_d n +:+ " bytes, want " +:+ fmt_d N.
Proof.
  transitivity ("ptracePeek: peeked " +:+ fmt_d n +:+ " bytes, want " +:+ (fmt_d N +:+ ""));
    [reflexivity|by rewrite append_empty_r].
Qed.

Lemma Sprintf_poke n N :
  Sprintf "ptracePoke: poked %d bytes, want %d" [n; N] =
  "ptracePoke: poked " +:+ fmt_d n +:+ " bytes, want " +:+ fmt_d N.
Proof.
  transitivity ("ptracePoke: poked " +:+ fmt_d n +:+ " bytes, want " +:+ (fmt_d N +:+ ""));
    [reflexivity|by rewrite append_empty_r].
Qed.

(** Something in the log: the executor is past its test, and locked. *)
Lemma logged_pinned progs s0 m :
  Inv progs s0 m → log m ≠ [] → pinned m = true.
Proof.
  intros [_ _ _ Hstarted (rs & s_end & tl & Hlog & _ & _ & _ & Hcur)] Hne.
  apply Hstarted. intros Hw. unfold current in Hcur. rewrite Hw in Hcur.
  destruct Hcur as (-> & -> & _). by rewrite Hlog in Hne.
Qed.

Lemma begin_thread progs s0 m rs s_end tl κ t :
  history progs s0 m rs s_end tl → EvBegin κ t ∈ log m → t = wthread m.
Proof.
  intros (Hlog & _ & Hrs & _ & Hcur) Hin. rewrite Hlog in Hin.
  apply elem_of_app in Hin as [Hin|Hin].
  - apply elem_of_rounds in Hin as (r & Hr & Hin).
    rewrite Forall_forall in Hrs. destruct (Hrs _ Hr) as (Ht & _).
    unfold round_events in Hin.
    repeat (apply elem_of_cons in Hin as [Hin|Hin]; [try done|]).
    + by simplify_eq.
    + by apply elem_of_nil in Hin.
  - apply current_tail in Hcur
      as [[-> _]|[(? & ? & -> & _)|[(? & ? & -> & _)|(? & ? & ? & -> & _)]]];
    repeat (apply elem_of_cons in Hin as [Hin|Hin]; [try done; by simplify_eq|]);
    by apply elem_of_nil in Hin.
Qed.

(** C1. In every run in which the clients call the nine methods, the
    primitives the kernel has been asked for since the start are those of
    the closures that ended, one each and in order, each invoked on the
    thread of the executor goroutine, and the primitive of every call that
    has returned is among them; every closure began on that thread; as soon
    as one began the goroutine is locked to the thread; and once it is
    locked, no schedule moves it to another thread or unlocks it. *)
Theorem primitives_on_pinned_thread cap_fc cap_ec t0 mprogs s0 acts m :
  exec acts (init cap_fc cap_ec t0 (session mprogs) s0) = Some m →
  trace (store m) = trace s0 ++ invoked mprogs (wthread m) (ended (log m)).*1 ∧
  (∀ t (p : Call), (t, p) ∈ invoked mprogs (wthread m) (ended (log m)).*1 → t = wthread m) ∧
  (∀ i κ ρ e fr mth,
     log m !! i = Some (EvReturn κ ρ e fr) → method_at mprogs κ = Some mth →
     (wthread m, primitive_of mth) ∈ invoked mprogs (wthread m) (ended (log m)).*1) ∧
  (∀ i κ t, log m !! i = Some (EvBegin κ t) → t = wthread m ∧ pinned m = true) ∧
  (pinned m = true →
     ∀ acts' m', exec acts' m = Some m' → pinned m' = true ∧ wthread m' = wthread m).
Proof.
  intros Hrun. split_and!.
  - by eapply session_trace.
  - intros t p Hin. unfold invoked in Hin.
    apply list_elem_of_omap in Hin as (κ & _ & Hκ).
    destruct (method_at mprogs κ); by simplify_eq/=.
  - intros i κ ρ e fr mth Hi Hmth.
    destruct (session_return _ _ _ _ _ _ _ _ _ _ _ _ _ Hrun Hi Hmth)
      as (_ & _ & _ & s & s' & l1 & l2 & l3 & Hlog & _).
    unfold invoked. apply list_elem_of_omap. exists κ. split; [|by rewrite Hmth].
    rewrite Hlog, ended_app. simpl. rewrite fmap_app, fmap_cons. simpl.
    apply elem_of_app; right. apply list_elem_of_here.
  - intros i κ t Hi. apply run_Inv in Hrun as HI. split.
    + destruct HI as [_ _ _ _ (rs & s_end & tl & Hhist)].
      eapply begin_thread; [done|]. by eapply list_elem_of_lookup_2.
    + eapply logged_pinned; [done|]. intros Hnil. by rewrite Hnil in Hi.
  - intros Hpin acts' m' Hexec. by eapply exec_pinned.
Qed.

(** C5. When a call of [ptracePeek] for [len out] bytes returns [e], its
    closure was run, and with [n] and [err] what [syscall.PtracePeekText]
    reported to it: if [err] is nil and [n] is not [len out] (so also when it
    is less), [e] is the error whose text gives the decimal numerals of [n]
    and then of [len out]; [e] is nil only if [n] is [len out] and [err] is
    nil, and [e] is nil then. *)
Theorem ptracePeek_partial_transfer cap_fc cap_ec t0 mprogs s0 acts m i κ ρ e fr pid addr out :
  exec acts (init cap_fc cap_ec t0 (session mprogs) s0) = Some m →
  log m !! i = Some (EvReturn κ ρ e fr) →
  method_at mprogs κ = Some (PtracePeek pid addr out) →
  ∃ s s' n err w',
    EvEnd κ e s s' ∈ log m ∧
    syscall_PtracePeekText pid addr out (world s) = ((n, err), w') ∧
    (err = None → n ≠ len out →
       ∃ a b, e = Some (ErrorString ("ptracePeek: peeked " +:+ a +:+ " bytes, want " +:+ b)) ∧
              a = fmt_d n ∧ b = fmt_d (len out) ∧
              read_d a = Some n ∧ read_d b = Some (len out)) ∧
    (e = None → n = len out ∧ err = None) ∧
    (err = None → n = len out → e = None).
Proof.
  intros Hrun Hi Hmth.
  destruct (session_return _ _ _ _ _ _ _ _ _ _ _ _ _ Hrun Hi Hmth)
    as (_ & _ & _ & s & s' & l1 & l2 & l3 & Hlog & Hf & _).
  apply (closure_transfer _ (len out)) in Hf; [|done]. simpl in Hf.
  destruct (syscall_PtracePeekText pid addr out (world s)) as [[n err] w'] eqn:Hprim.
  simpl in Hf. exists s, s', n, err, w'. split_and!; [|done|..].
  - rewrite Hlog. apply elem_of_app; right. apply list_elem_of_here.
  - intros -> Hn. rewrite Hf. repeat case_decide; try done.
    unfold Errorf. rewrite Sprintf_peek. eexists _, _. split_and!; try done; apply read_fmt_d.
  - intros ->. repeat case_decide; try done.
  - intros -> ->. rewrite Hf. by repeat case_decide.
Qed.

(** C6. When a call of [ptracePoke] with [len data] bytes returns [e], its
    closure was run, and with [n] and [err] what [syscall.PtracePokeText]
    reported to it: if [err] is nil and [n] is not [len data] (so also when
    it is less), [e] is the error whose text gives the decimal numerals of
    [n] and then of [len data], as for [ptracePeek]; [e] is nil only if [n]
    is [len data] and [err] is nil, and [e] is nil then. *)
Theorem ptracePoke_partial_transfer cap_fc cap_ec t0 mprogs s0 acts m i κ ρ e fr pid addr data :
  exec acts (init cap_fc cap_ec t0 (session mprogs) s0) = Some m →
  log m !! i = Some (EvReturn κ ρ e fr) →
  method_at mprogs κ = Some (PtracePoke pid addr data) →
  ∃ s s' n err w',
    EvEnd κ e s s' ∈ log m ∧
    syscall_PtracePokeText pid addr data (world s) = ((n, err), w') ∧
    (err = None → n ≠ len data →
       ∃ a b, e = Some (ErrorString ("ptracePoke: poked " +:+ a +:+ " bytes, want " +:+ b)) ∧
              a = fmt_d n ∧ b = fmt_d (len data) ∧
              read_d a = Some n ∧ read_d b = Some (len data)) ∧
    (e = None → n = len data ∧ err = None) ∧
    (err = None → n = len data → e = None).
Proof.
  intros Hrun Hi Hmth.
  destruct (session_return _ _ _ _ _ _ _ _ _ _ _ _ _ Hrun Hi Hmth)
    as (_ & _ & _ & s & s' & l1 & l2 & l3 & Hlog & Hf & _).
  apply (closure_transfer _ (len data)) in Hf; [|done]. simpl in Hf.
  destruct (syscall_PtracePokeText pid addr data (world s)) as [[n err] w'] eqn:Hprim.
  simpl in Hf. exists s, s', n, err, w'. split_and!; [|done|..].
  - rewrite Hlog. apply elem_of_app; right. apply list_elem_of_here.
  - intros -> Hn. rewrite Hf. repeat case_decide; try done.
    unfold Errorf. rewrite Sprintf_poke. eexists _, _. split_and!; try done; apply read_fmt_d.
  - intros ->. repeat case_decide; try done.
  - intros -> ->. rewrite Hf. by repeat case_decide.
Qed.

(** C7. When a call of [startProcess], [ptraceCont], [ptraceGetRegs],
    [ptraceSetOptions], [ptraceSetRegs] or [ptraceSingleStep] returns [e],
    its closure was run exactly once, that run asked the kernel for the
    primitive of the method and for nothing else, and [e] is the error the
    primitive reported; the [proc] that [startProcess] returns is the handle
    the primitive reported. *)
Theorem plain_methods_forward cap_fc cap_ec t0 mprogs s0 acts m i κ ρ e fr mth :
  exec acts (init cap_fc cap_ec t0 (session mprogs) s0) = Some m →
  log m !! i = Some (EvReturn κ ρ e fr) →
  method_at mprogs κ = Some mth → plain mth = true →
  ∃ s s',
    EvEnd κ e s s' ∈ log m ∧ executions κ (log m) = 1 ∧
    trace s' = trace s ++ [(wthread m, primitive_of mth)] ∧
    world s' = (perform (primitive_of mth) (world s)).2 ∧
    e = rep_err (perform (primitive_of mth) (world s)).1 ∧
    (∀ name argv attr, mth = StartProcess name argv attr →
       proc fr = rep_proc (perform (primitive_of mth) (world s)).1).
Proof.
  intros Hrun Hi Hmth Hplain.
  destruct (session_return _ _ _ _ _ _ _ _ _ _ _ _ _ Hrun Hi Hmth)
    as (_ & _ & Honce & s & s' & l1 & l2 & l3 & Hlog & Hf & ->).
  exists s, s'. destruct (closure_effect _ _ _ _ _ _ Hf) as (Hworld & Htrace).
  split_and!; try done.
  - rewrite Hlog. apply elem_of_app; right. apply list_elem_of_here.
  - by eapply closure_plain.
  - intros name argv attr ->. by eapply closure_startProcess.
Qed.

(** C8. When a call of [wait] for [pid] returns, its closure was run and
    had ended before; that run asked the kernel for [syscall.Wait4] on [pid]
    with the flag [syscall.WALL] and for nothing else; and the call returns
    the pid, the status and the error that [Wait4] reported. *)
Theorem wait_returns_kernel_report cap_fc cap_ec t0 mprogs s0 acts m i κ ρ e fr pid :
  exec acts (init cap_fc cap_ec t0 (session mprogs) s0) = Some m →
  log m !! i = Some (EvReturn κ ρ e fr) →
  method_at mprogs κ = Some (Wait pid) →
  ∃ s s' l1 l2 l3 wpid1 status1 err1 w',
    log m = l1 ++ EvEnd κ e s s' :: l2 ++ EvReturn κ ρ e fr :: l3 ∧
    trace s' = trace s ++ [(wthread m, CallWait4 pid WALL)] ∧
    syscall_Wait4 pid WALL (world s) = ((wpid1, status1, err1), w') ∧
    world s' = w' ∧ wpid fr = wpid1 ∧ status fr = status1 ∧ e = err1.
Proof.
  intros Hrun Hi Hmth.
  destruct (session_return _ _ _ _ _ _ _ _ _ _ _ _ _ Hrun Hi Hmth)
    as (_ & _ & _ & s & s' & l1 & l2 & l3 & Hlog & Hf & ->).
  destruct (closure_effect _ _ _ _ _ _ Hf) as (Hworld & Htrace).
  apply closure_wait in Hf as (Hwpid & Hstatus & He). simpl in *.
  destruct (syscall_Wait4 pid WALL (world s)) as [[[wpid1 status1] err1] w'] eqn:Hprim.
  simpl in *. exists s, s', l1, l2, l3, wpid1, status1, err1, w'. by split_and!.
Qed.

(** C10. When a call of [ptracePeek] or [ptracePoke] returns [e], with [n]
    and [err] what the primitive reported to its closure and [N] the count
    asked for: if [err] is not nil then [e] is [err], whatever [n] is; the
    comparison of [n] with [N] decides [e] only if [err] is nil. *)
Theorem transfer_os_error_first cap_fc cap_ec t0 mprogs s0 acts m i κ ρ e fr mth N :
  exec acts (init cap_fc cap_ec t0 (session mprogs) s0) = Some m →
  log m !! i = Some (EvReturn κ ρ e fr) →
  method_at mprogs κ = Some mth → requested mth = Some N →
  ∃ s s',
    EvEnd κ e s s' ∈ log m ∧
    let rep := (perform (primitive_of mth) (world s)).1 in
    (rep_err rep ≠ None → e = rep_err rep) ∧
    (rep_err rep = None → rep_n rep = N → e = None) ∧
    (rep_err rep = None → rep_n rep ≠ N →
       ∃ msg, e = Some (ErrorString msg) ∧
         msg = (match mth with
                | PtracePeek _ _ _ => "ptracePeek: peeked "
                | _ => "ptracePoke: poked "
                end) +:+ fmt_d (rep_n rep) +:+ " bytes, want " +:+ fmt_d N).
Proof.
  intros Hrun Hi Hmth HN.
  destruct (session_return _ _ _ _ _ _ _ _ _ _ _ _ _ Hrun Hi Hmth)
    as (_ & _ & _ & s & s' & l1 & l2 & l3 & Hlog & Hf & _).
  apply (closure_transfer _ N) in Hf; [|done].
  exists s, s'. split.
  { rewrite Hlog. apply elem_of_app; right. apply list_elem_of_here. }
  intros rep. fold rep in Hf. split_and!.
  - intros Herr. rewrite Hf. by case_decide.
  - intros Herr Hn. rewrite Hf. by repeat case_decide.
  - intros Herr Hn. rewrite Hf. repeat case_decide; try done.
    eexists; split; [|done]. unfold Errorf.
    destruct mth; try done; by rewrite ?Sprintf_peek, ?Sprintf_poke.
Qed.

(** *** After [close(fc)] *)

(** The moves of the executor after it has a closure, and its exit, do not
    receive from [fc]. *)
Lemma drain_step_accepted a m m' :
  a ∈ [AStart; ABegin; AEnd; AExit] ∨ (∃ g, a = AAnswer g) →
  step a m = Some m' →
  accepted (log m') = accepted (log m) ∧ closed (fc m') = closed (fc m).
Proof.
  intros Ha. unfold step. destruct (panicked m); [done|]. intros Hstep.
  assert (a = AStart ∨ a = ABegin ∨ a = AEnd ∨ a = AExit ∨ ∃ g, a = AAnswer g) as Hcases.
  { destruct Ha as [Ha|Ha]; [|by eauto 10].
    repeat (apply elem_of_cons in Ha as [->|Ha]; [by eauto 10|]). by apply elem_of_nil in Ha. }
  destruct Hcases as [->|[->|[->|[->|[g ->]]]]]; simpl in Hstep;
    repeat match type of Hstep with
      | match ?x with _ => _ end = _ => destruct x eqn:?; simpl in Hstep; try done
      | (let '(_, _) := ?x in _) = _ => destruct x eqn:?; simpl in Hstep
      | _ ≫= _ = _ => apply bind_Some in Hstep as (? & ? & Hstep)
      end;
    injection Hstep as <-; simpl; rewrite ?accepted_app; simpl; by rewrite ?app_nil_r.
Qed.

(** With [fc] closed, the executor comes to the end of [ptraceRun] on the
    schedule [drain]. *)
Lemma drain_runs progs s0 m :
  Inv progs s0 m → closed (fc m) = true → panicked m = false →
  (worker m = WInit → cap (fc m) = 0 ∧ cap (ec m) = 0) →
  ∃ m', exec (drain m) m = Some m' ∧ worker m' = WDone ∧ panicked m' = false ∧
        accepted (log m') = accepted (log m).
Proof.
  intros HI Hclosed Hpan Hcaps0.
  assert (∀ m, Inv progs s0 m → closed (fc m) = true → panicked m = false →
            worker m = WIdle →
            ∃ m', exec [AExit] m = Some m' ∧ worker m' = WDone ∧ panicked m' = false ∧
                  accepted (log m') = accepted (log m)) as Hexit.
  { clear. intros m HI Hclosed Hpan Hw.
    destruct (started_caps _ _ _ HI) as (_ & _ & _ & Hbuf); [by rewrite Hw|].
    simpl. unfold step. rewrite Hpan, Hw, Hclosed, Hbuf. simpl. eauto. }
  assert (∀ m κ e, Inv progs s0 m → closed (fc m) = true → panicked m = false →
            worker m = WSend κ e →
            ∃ m', exec [AAnswer κ.1; AExit] m = Some m' ∧ worker m' = WDone ∧
                  panicked m' = false ∧ accepted (log m') = accepted (log m)) as Hanswer.
  { clear -Hexit. intros m κ e HI Hclosed Hpan Hw.
    pose proof HI as [_ Hec _ _ (rs & s_end & tl & _ & _ & _ & _ & Hcur)].
    unfold current in Hcur. rewrite Hw in Hcur.
    destruct Hcur as (f & _ & _ & [(c & Hc & _ & Hwait) _] & _).
    destruct (step (AAnswer κ.1) m) as [m1|] eqn:Hstep.
    2:{ unfold step, receiving in Hstep. rewrite Hpan, Hw, Hec, Hc in Hstep.
        simpl in Hstep. by rewrite Hwait in Hstep. }
    pose proof (step_Inv _ _ _ _ _ HI Hstep) as HI1.
    destruct (drain_step_accepted _ _ _ (or_intror (ex_intro _ _ eq_refl)) Hstep) as (Hacc & Hcl).
    assert (worker m1 = WIdle ∧ panicked m1 = false) as (Hw1 & Hpan1).
    { unfold step, receiving in Hstep. rewrite Hpan, Hw, Hec, Hc in Hstep.
      simpl in Hstep. rewrite Hwait in Hstep. by injection Hstep as <-. }
    destruct (Hexit m1 HI1) as (m' & Hexec & ? & ? & Hacc'); [congruence|done|done|].
    exists m'. cbn [exec]. rewrite Hstep. simpl. split_and!; try done. congruence. }
  assert (∀ m κ f, Inv progs s0 m → closed (fc m) = true → panicked m = false →
            worker m = WRunning κ f →
            ∃ m', exec [AEnd; AAnswer κ.1; AExit] m = Some m' ∧ worker m' = WDone ∧
                  panicked m' = false ∧ accepted (log m') = accepted (log m)) as Hend.
  { clear -Hanswer. intros m κ f HI Hclosed Hpan Hw.
    destruct (f (wthread m) (store m)) as [e s'] eqn:Hf.
    assert (∃ m1, step AEnd m = Some m1 ∧ worker m1 = WSend κ e ∧ panicked m1 = false)
      as (m1 & Hstep & Hw1 & Hpan1).
    { unfold step. rewrite Hpan, Hw, Hf. eauto. }
    pose proof (step_Inv _ _ _ _ _ HI Hstep) as HI1.
    destruct (drain_step_accepted AEnd _ _ ltac:(left; set_solver) Hstep) as (Hacc & Hcl).
    destruct (Hanswer m1 κ e HI1) as (m' & Hexec & ? & ? & Hacc'); [congruence|done|done|].
    exists m'. cbn [exec]. rewrite Hstep. simpl. split_and!; try done. congruence. }
  assert (∀ m κ f, Inv progs s0 m → closed (fc m) = true → panicked m = false →
            worker m = WHave κ f →
            ∃ m', exec [ABegin; AEnd; AAnswer κ.1; AExit] m = Some m' ∧ worker m' = WDone ∧
                  panicked m' = false ∧ accepted (log m') = accepted (log m)) as Hbegin.
  { clear -Hend. intros m κ f HI Hclosed Hpan Hw.
    assert (∃ m1, step ABegin m = Some m1 ∧ worker m1 = WRunning κ f ∧ panicked m1 = false)
      as (m1 & Hstep & Hw1 & Hpan1).
    { unfold step. rewrite Hpan, Hw. eauto. }
    pose proof (step_Inv _ _ _ _ _ HI Hstep) as HI1.
    destruct (drain_step_accepted ABegin _ _ ltac:(left; set_solver) Hstep) as (Hacc & Hcl).
    destruct (Hend m1 κ f HI1) as (m' & Hexec & ? & ? & Hacc'); [congruence|done|done|].
    exists m'. cbn [exec]. rewrite Hstep. simpl. split_and!; try done. congruence. }
  unfold drain. destruct (worker m) as [| |κ f|κ f|κ e|] eqn:Hw; eauto.
  destruct Hcaps0 as (Hc1 & Hc2); [done|].
    assert (∃ m1, step AStart m = Some m1 ∧ worker m1 = WIdle ∧ panicked m1 = false)
      as (m1 & Hstep & Hw1 & Hpan1).
    { unfold step. rewrite Hpan, Hw, Hc1, Hc2. simpl. eauto. }
    pose proof (step_Inv _ _ _ _ _ HI Hstep) as HI1.
    destruct (drain_step_accepted AStart _ _ ltac:(left; set_solver) Hstep) as (Hacc & Hcl).
  destruct (Hexit m1 HI1) as (m' & Hexec & ? & ? & Hacc'); [congruence|done|done|].
  exists m'. cbn [exec]. rewrite Hstep. simpl. split_and!; try done. congruence.
Qed.

(** With [fc] closed and the executor past its test, a step that does not
    kill the program is the next step of [drain]. *)
Lemma closed_step progs s0 a m m1 :
  Inv progs s0 m → closed (fc m) = true → worker m ≠ WInit →
  step a m = Some m1 → panicked m1 = false →
  drain m = a :: drain m1 ∧ closed (fc m1) = true ∧ worker m1 ≠ WInit.
Proof.
  intros HI Hclosed Hw Hstep Hpan1.
  destruct (started_caps _ _ _ HI Hw) as (Hc1 & Hc2 & Hpin & Hbuf).
  destruct HI as [_ Hec _ _ (rs & s_end & tl & _ & _ & _ & _ & Hcur)].
  unfold step in Hstep. destruct (panicked m) eqn:Hpan; [done|].
  unfold drain, current in *.
  destruct a; simpl in Hstep; rewrite ?Hclosed, ?Hpin, ?Hec, ?Hc1, ?Hc2, ?Hbuf in Hstep;
    simpl in Hstep; try done.
  - destruct (worker m); done.
  - destruct (worker m); done.
  - destruct (worker m); done.
  - destruct (worker m) eqn:Hwm; try done. injection Hstep as <-; simpl. by rewrite Hclosed.
  - destruct (worker m) eqn:Hwm; try done.
    destruct (f _ _) as [e s'] eqn:Hf. injection Hstep as <-; simpl. by rewrite Hclosed.
  - destruct (worker m) eqn:Hwm; try done.
    destruct (receiving m g) as [c|] eqn:Hrecv; simpl in Hstep; [|done].
    apply receiving_Some in Hrecv as (Hg & Hwait).
    destruct Hcur as (f & _ & _ & Hbusy & _).
    rewrite (busy_receiver _ _ _ _ Hbusy Hg Hwait).
    injection Hstep as <-; simpl. by rewrite Hclosed.
  - destruct (worker m); done.
  - destruct (worker m) eqn:Hwm; try done. injection Hstep as <-; simpl. by rewrite Hclosed.
  - destruct (sending m g) as [[[c κ] f]|]; simpl in Hstep; [|done].
    injection Hstep as <-. done.
Qed.

(** With [fc] closed and the executor past its test, a schedule on which no
    goroutine panics is a beginning of [drain]. *)
Lemma closed_schedule progs s0 acts m m' :
  Inv progs s0 m → closed (fc m) = true → worker m ≠ WInit →
  exec acts m = Some m' → panicked m' = false → acts `prefix_of` drain m.
Proof.
  revert m. induction acts as [|a acts IH]; intros m HI Hclosed Hw Hexec Hpan'.
  - apply prefix_nil.
  - simpl in Hexec. destruct (step a m) as [m1|] eqn:Hstep; simpl in Hexec; [|done].
    assert (panicked m1 = false) as Hpan1.
    { destruct (panicked m1) eqn:Hp; [|done]. destruct acts as [|a' acts]; simpl in Hexec.
      - congruence.
      - unfold step in Hexec. by rewrite Hp in Hexec. }
    destruct (closed_step _ _ _ _ _ HI Hclosed Hw Hstep Hpan1) as (-> & Hclosed1 & Hw1).
    apply prefix_cons. eapply IH; try done. by eapply step_Inv.
Qed.

(** When the executor is in [range fc] or has returned, every closure it
    received has been run and answered. *)
Lemma idle_all_answered progs s0 m :
  Inv progs s0 m → worker m = WIdle ∨ worker m = WDone →
  answered (log m) = ended (log m) ∧ (answered (log m)).*1 = (accepted (log m)).*1.
Proof.
  intros [_ _ _ _ (rs & s_end & tl & Hhist)] Hw.
  pose proof (log_views _ _ _ _ _ _ Hhist) as (-> & _ & -> & ->).
  destruct Hhist as (_ & _ & _ & _ & Hcur). unfold current in Hcur.
  destruct Hw as [Hw|Hw]; rewrite Hw in Hcur; destruct Hcur as (-> & _); simpl;
    by rewrite !app_nil_r, <- !list_fmap_compose.
Qed.

(** C9. In a run in which [fc] has been closed and the program is alive
    (and, if the executor has not yet made its test, the channels are
    unbuffered): on the schedule [drain], of at most four steps, the executor
    returns from [ptraceRun], having received no further closure and having
    run and answered every closure it received; if the executor is past its
    test, any schedule on which no goroutine panics is a beginning of
    [drain], so no run goes on for more than these steps.  And
    [ptraceRun_loop] is a total function that gives one value for each of
    the closures of a finite list. *)
Theorem closed_fc_terminates cap_fc cap_ec t0 progs s0 acts m :
  exec acts (init cap_fc cap_ec t0 progs s0) = Some m →
  closed (fc m) = true → panicked m = false →
  (worker m = WInit → cap (fc m) = 0 ∧ cap (ec m) = 0) →
  (∃ m', exec (drain m) m = Some m' ∧ worker m' = WDone ∧ panicked m' = false ∧
         accepted (log m') = accepted (log m) ∧
         answered (log m') = ended (log m') ∧
         (answered (log m')).*1 = (accepted (log m)).*1) ∧
  length (drain m) ≤ 4 ∧
  (worker m ≠ WInit →
     ∀ acts' m', exec acts' m = Some m' → panicked m' = false →
                 acts' `prefix_of` drain m) ∧
  (∀ (fs : list (func World)) t s, length (ptraceRun_loop fs t s).1 = length fs).
Proof.
  intros Hrun Hclosed Hpan Hcaps0. apply run_Inv in Hrun as HI. split_and!.
  - destruct (drain_runs _ _ _ HI Hclosed Hpan Hcaps0) as (m' & Hexec & Hw' & Hpan' & Hacc).
    exists m'. pose proof (exec_Inv _ _ _ _ _ HI Hexec) as HI'.
    destruct (idle_all_answered _ _ _ HI' (or_intror Hw')) as (Hans & Hkeys).
    split_and!; try done. by rewrite <- Hacc.
  - unfold drain. destruct (worker m); simpl; lia.
  - intros Hw acts' m' Hexec Hpan'. by eapply closed_schedule.
  - intros fs t s. apply ptraceRun_loop_length.
Qed.


(** A schedule that can be run to its end gives the state it ends in. *)
Lemma exec_default acts m :
  bool_decide (is_Some (exec acts m)) = true →
  exec acts m = Some (default m (exec acts m)).
Proof. intros [m' ->]%bool_decide_eq_true_1. done. Qed.

End ProxyFacts.

(** ** The theorems on runs of the small kernel *)

#[local] Existing Instance Toy.kernel.

Ltac toy_run := apply exec_default; vm_compute; reflexivity.
Ltac toy_eval := vm_compute; reflexivity.

(** The run of [Toy.schedule]: what the executor sent on [ec], what the
    kernel was asked for and on which thread, and where the executor ended. *)
Example toy_answers :
  answered (log Toy.final) =
  [((1, 0), Some (ErrorString "ptracePeek: peeked 3 bytes, want 8"));
   ((0, 0), None); ((0, 1), None);
   ((1, 1), Some (ErrorString "ptracePoke: poked 3 bytes, want 4"));
   ((1, 2), Toy.EFAULT); ((0, 2), None)].
Proof. toy_eval. Qed.

Example toy_trace :
  trace (store Toy.final) =
  [(9, CallPtracePeekText 500%Z 4096%Z Toy.eight);
   (9, CallStartProcess "/bin/true" ["true"] 0%Z);
   (9, CallWait4 500%Z 0x40000000%Z);
   (9, CallPtracePokeText 500%Z 4096%Z Toy.four);
   (9, CallPtracePeekText 500%Z 0%Z Toy.eight);
   (9, CallPtraceCont 500%Z 0%Z)].
Proof. toy_eval. Qed.

Example toy_final_state :
  (pinned Toy.final, wthread Toy.final, panicked Toy.final, world (store Toy.final))
  = (true, 9, false, 6).
Proof. toy_eval. Qed.

(** With a buffered channel the first step of the executor is a panic, and
    nothing runs afterwards. *)
Example toy_buffered_panics :
  panicked <$> step AStart Toy.buffered = Some true ∧
  (step AStart Toy.buffered ≫= step (AHandOff 0)) = None.
Proof. split; toy_eval. Qed.

(** While the executor holds the answer to a call of client 1, client 0 has
    nothing to receive; and a send on the closed [fc] is a panic. *)
Example toy_no_other_receiver :
  (exec ([AStart] ++ [AHandOff 1; ABegin; AEnd]) Toy.start ≫= step (AAnswer 0)) = None.
Proof. toy_eval. Qed.

Example toy_send_on_closed :
  panicked <$> step (ASendClosed 0) Toy.closed_state = Some true.
Proof. toy_eval. Qed.

Example Errorf_peek_3_8 :
  Errorf "ptracePeek: peeked %d bytes, want %d" [3%Z; 8%Z] =
  Some (ErrorString "ptracePeek: peeked 3 bytes, want 8").
Proof. reflexivity. Qed.

Lemma primitives_on_pinned_thread_witness :
  exec Toy.schedule Toy.start = Some Toy.final ∧
  trace (store Toy.final) =
    trace Toy.s0 ++ invoked Toy.calls (wthread Toy.final) (ended (log Toy.final)).*1.
Proof.
  assert (exec Toy.schedule Toy.start = Some Toy.final) as Hrun by toy_run.
  split; [exact Hrun|].
  exact (proj1 (primitives_on_pinned_thread (kernel := Toy.kernel)
                  0 0 7 Toy.calls Toy.s0 Toy.schedule Toy.final Hrun)).
Defined.

Lemma serial_fifo_paired_witness :
  exec Toy.schedule Toy.start = Some Toy.final ∧
  serial false (log Toy.final) = true ∧ in_flight (log Toy.final) ≤ 1.
Proof.
  assert (exec Toy.schedule Toy.start = Some Toy.final) as Hrun by toy_run.
  split; [exact Hrun|].
  exact (proj1 (serial_fifo_paired
                  0 0 7 (session Toy.calls) Toy.s0 Toy.schedule Toy.final Hrun)).
Defined.

Lemma ptraceRun_panics_iff_buffered_witness :
  worker Toy.buffered = WInit ∧ panicked Toy.buffered = false ∧
  ((∃ msg, ptraceRun_entry (cap (fc Toy.buffered)) (cap (ec Toy.buffered)) = Panics msg)
     ↔ 0 < cap (fc Toy.buffered) ∨ 0 < cap (ec Toy.buffered)).
Proof.
  split; [reflexivity|]. split; [reflexivity|].
  exact (proj1 (ptraceRun_panics_iff_buffered
                  Toy.buffered eq_refl eq_refl)).
Defined.

Lemma executor_maps_closures_witness :
  exec Toy.schedule Toy.start = Some Toy.final ∧
  (answered (log Toy.final)).*2 =
    take (length (answered (log Toy.final)))
      (ptraceRun_loop (accepted (log Toy.final)).*2 (wthread Toy.final) Toy.s0).1.
Proof.
  assert (exec Toy.schedule Toy.start = Some Toy.final) as Hrun by toy_run.
  split; [exact Hrun|].
  exact (proj1 (executor_maps_closures
                  0 0 7 (session Toy.calls) Toy.s0 Toy.schedule Toy.final Hrun)).
Defined.

Lemma ptracePeek_partial_transfer_witness :
  exec Toy.schedule Toy.start = Some Toy.final ∧
  log Toy.final !! 4 =
    Some (EvReturn (1, 0) (1, 0)
            (Some (ErrorString "ptracePeek: peeked 3 bytes, want 8")) zero_frame) ∧
  method_at Toy.calls (1, 0) = Some (PtracePeek 500%Z 4096%Z Toy.eight) ∧
  ∃ (s s' : Store nat) n err w',
    EvEnd (1, 0) (Some (ErrorString "ptracePeek: peeked 3 bytes, want 8")) s s'
      ∈ log Toy.final ∧
    syscall_PtracePeekText 500%Z 4096%Z Toy.eight (world s) = ((n, err), w') ∧
    (err = None → n ≠ len Toy.eight →
       ∃ a b, Some (ErrorString "ptracePeek: peeked 3 bytes, want 8") =
              Some (ErrorString ("ptracePeek: peeked " +:+ a +:+ " bytes, want " +:+ b)) ∧
              a = fmt_d n ∧ b = fmt_d (len Toy.eight) ∧
              read_d a = Some n ∧ read_d b = Some (len Toy.eight)) ∧
    (Some (ErrorString "ptracePeek: peeked 3 bytes, want 8") = None →
       n = len Toy.eight ∧ err = None) ∧
    (err = None → n = len Toy.eight →
       Some (ErrorString "ptracePeek: peeked 3 bytes, want 8") = None).
Proof.
  assert (exec Toy.schedule Toy.start = Some Toy.final) as Hrun by toy_run.
  assert (log Toy.final !! 4 =
          Some (EvReturn (1, 0) (1, 0)
                  (Some (ErrorString "ptracePeek: peeked 3 bytes, want 8")) zero_frame))
    as Hret by toy_eval.
  split; [exact Hrun|]. split; [exact Hret|]. split; [reflexivity|].
  exact (ptracePeek_partial_transfer (kernel := Toy.kernel)
           0 0 7 Toy.calls Toy.s0 Toy.schedule Toy.final 4 (1, 0) (1, 0) _ _
           500%Z 4096%Z Toy.eight Hrun Hret eq_refl).
Defined.

Lemma ptracePoke_partial_transfer_witness :
  exec Toy.schedule Toy.start = Some Toy.final ∧
  log Toy.final !! 19 =
    Some (EvReturn (1, 1) (1, 1)
            (Some (ErrorString "ptracePoke: poked 3 bytes, want 4")) zero_frame) ∧
  method_at Toy.calls (1, 1) = Some (PtracePoke 500%Z 4096%Z Toy.four) ∧
  ∃ (s s' : Store nat) n err w',
    EvEnd (1, 1) (Some (ErrorString "ptracePoke: poked 3 bytes, want 4")) s s'
      ∈ log Toy.final ∧
    syscall_PtracePokeText 500%Z 4096%Z Toy.four (world s) = ((n, err), w') ∧
    (err = None → n ≠ len Toy.four →
       ∃ a b, Some (ErrorString "ptracePoke: poked 3 bytes, want 4") =
              Some (ErrorString ("ptracePoke: poked " +:+ a +:+ " bytes, want " +:+ b)) ∧
              a = fmt_d n ∧ b = fmt_d (len Toy.four) ∧
              read_d a = Some n ∧ read_d b = Some (len Toy.four)) ∧
    (Some (ErrorString "ptracePoke: poked 3 bytes, want 4") = None →
       n = len Toy.four ∧ err = None) ∧
    (err = None → n = len Toy.four →
       Some (ErrorString "ptracePoke: poked 3 bytes, want 4") = None).
Proof.
  assert (exec Toy.schedule Toy.start = Some Toy.final) as Hrun by toy_run.
  assert (log Toy.final !! 19 =
          Some (EvReturn (1, 1) (1, 1)
                  (Some (ErrorString "ptracePoke: poked 3 bytes, want 4")) zero_frame))
    as Hret by toy_eval.
  split; [exact Hrun|]. split; [exact Hret|]. split; [reflexivity|].
  exact (ptracePoke_partial_transfer (kernel := Toy.kernel)
           0 0 7 Toy.calls Toy.s0 Toy.schedule Toy.final 19 (1, 1) (1, 1) _ _
           500%Z 4096%Z Toy.four Hrun Hret eq_refl).
Defined.

Lemma plain_methods_forward_witness :
  exec Toy.schedule Toy.start = Some Toy.final ∧
  log Toy.final !! 9 =
    Some (EvReturn (0, 0) (0, 0) None {| proc := 501%Z; wpid := 0%Z; status := 0%Z |}) ∧
  method_at Toy.calls (0, 0) = Some (StartProcess "/bin/true" ["true"] 0%Z) ∧
  plain (StartProcess "/bin/true" ["true"] 0%Z) = true ∧
  ∃ s s' : Store nat,
    EvEnd (0, 0) None s s' ∈ log Toy.final ∧ executions (0, 0) (log Toy.final) = 1 ∧
    trace s' = trace s ++ [(wthread Toy.final, CallStartProcess "/bin/true" ["true"] 0%Z)] ∧
    world s' = (perform (CallStartProcess "/bin/true" ["true"] 0%Z) (world s)).2 ∧
    None = rep_err (perform (CallStartProcess "/bin/true" ["true"] 0%Z) (world s)).1 ∧
    (∀ name argv attr,
       StartProcess "/bin/true" ["true"] 0%Z = StartProcess name argv attr →
       proc {| proc := 501%Z; wpid := 0%Z; status := 0%Z |} =
       rep_proc (perform (CallStartProcess "/bin/true" ["true"] 0%Z) (world s)).1).
Proof.
  assert (exec Toy.schedule Toy.start = Some Toy.final) as Hrun by toy_run.
  assert (log Toy.final !! 9 =
          Some (EvReturn (0, 0) (0, 0) None {| proc := 501%Z; wpid := 0%Z; status := 0%Z |}))
    as Hret by toy_eval.
  split; [exact Hrun|]. split; [exact Hret|]. split; [reflexivity|]. split; [reflexivity|].
  exact (plain_methods_forward (kernel := Toy.kernel)
           0 0 7 Toy.calls Toy.s0 Toy.schedule Toy.final 9 (0, 0) (0, 0) _ _
           (StartProcess "/bin/true" ["true"] 0%Z) Hrun Hret eq_refl eq_refl).
Defined.

Lemma wait_returns_kernel_report_witness :
  exec Toy.schedule Toy.start = Some Toy.final ∧
  log Toy.final !! 14 =
    Some (EvReturn (0, 1) (0, 1) None {| proc := 0%Z; wpid := 500%Z; status := 1407%Z |}) ∧
  method_at Toy.calls (0, 1) = Some (Wait 500%Z) ∧
  ∃ (s s' : Store nat) l1 l2 l3 wpid1 status1 err1 w',
    log Toy.final =
      l1 ++ EvEnd (0, 1) None s s' :: l2 ++
      EvReturn (0, 1) (0, 1) None {| proc := 0%Z; wpid := 500%Z; status := 1407%Z |} :: l3 ∧
    trace s' = trace s ++ [(wthread Toy.final, CallWait4 500%Z WALL)] ∧
    syscall_Wait4 500%Z WALL (world s) = ((wpid1, status1, err1), w') ∧
    world s' = w' ∧ 500%Z = wpid1 ∧ 1407%Z = status1 ∧ None = err1.
Proof.
  assert (exec Toy.schedule Toy.start = Some Toy.final) as Hrun by toy_run.
  assert (log Toy.final !! 14 =
          Some (EvReturn (0, 1) (0, 1) None {| proc := 0%Z; wpid := 500%Z; status := 1407%Z |}))
    as Hret by toy_eval.
  split; [exact Hrun|]. split; [exact Hret|]. split; [reflexivity|].
  exact (wait_returns_kernel_report (kernel := Toy.kernel)
           0 0 7 Toy.calls Toy.s0 Toy.schedule Toy.final 14 (0, 1) (0, 1) _ _
           500%Z Hrun Hret eq_refl).
Defined.

Lemma closed_fc_terminates_witness :
  exec Toy.closing Toy.start = Some Toy.closed_state ∧
  closed (fc Toy.closed_state) = true ∧ panicked Toy.closed_state = false ∧
  ∃ m', exec (drain Toy.closed_state) Toy.closed_state = Some m' ∧
        worker m' = WDone ∧ panicked m' = false ∧
        accepted (log m') = accepted (log Toy.closed_state) ∧
        answered (log m') = ended (log m') ∧
        (answered (log m')).*1 = (accepted (log Toy.closed_state)).*1.
Proof.
  assert (exec Toy.closing Toy.start = Some Toy.closed_state) as Hrun by toy_run.
  assert (closed (fc Toy.closed_state) = true) as Hclosed by toy_eval.
  assert (panicked Toy.closed_state = false) as Halive by toy_eval.
  split; [exact Hrun|]. split; [exact Hclosed|]. split; [exact Halive|].
  refine (proj1 (closed_fc_terminates
                   0 0 7 (session Toy.calls) Toy.s0 Toy.closing Toy.closed_state
                   Hrun Hclosed Halive _)).
  intros _. split; vm_compute; reflexivity.
Defined.

Lemma transfer_os_error_first_witness :
  exec Toy.schedule Toy.start = Some Toy.final ∧
  log Toy.final !! 24 = Some (EvReturn (1, 2) (1, 2) Toy.EFAULT zero_frame) ∧
  method_at Toy.calls (1, 2) = Some (PtracePeek 500%Z 0%Z Toy.eight) ∧
  requested (PtracePeek 500%Z 0%Z Toy.eight) = Some 8%Z ∧
  ∃ s s' : Store nat,
    EvEnd (1, 2) Toy.EFAULT s s' ∈ log Toy.final ∧
    let rep := (perform (primitive_of (PtracePeek 500%Z 0%Z Toy.eight)) (world s)).1 in
    (rep_err rep ≠ None → Toy.EFAULT = rep_err rep) ∧
    (rep_err rep = None → rep_n rep = 8%Z → Toy.EFAULT = None) ∧
    (rep_err rep = None → rep_n rep ≠ 8%Z →
       ∃ msg, Toy.EFAULT = Some (ErrorString msg) ∧
         msg = "ptracePeek: peeked " +:+ fmt_d (rep_n rep) +:+ " bytes, want " +:+ fmt_d 8%Z).
Proof.
  assert (exec Toy.schedule Toy.start = Some Toy.final) as Hrun by toy_run.
  assert (log Toy.final !! 24 = Some (EvReturn (1, 2) (1, 2) Toy.EFAULT zero_frame))
    as Hret by toy_eval.
  split; [exact Hrun|]. split; [exact Hret|]. split; [reflexivity|]. split; [reflexivity|].
  exact (transfer_os_error_first (kernel := Toy.kernel)
           0 0 7 Toy.calls Toy.s0 Toy.schedule Toy.final 24 (1, 2) (1, 2) _ _
           (PtracePeek 500%Z 0%Z Toy.eight) 8%Z Hrun Hret eq_refl eq_refl).
Defined.
